(** * NanoQLClient: a shallow embedding of [src/nano-ql-client.ts]

    The client builds one GraphQL-over-HTTP request per [execute] call and
    hands it to the host's [fetch], together with the signal of a fresh
    [AbortController].

    Layout of the development:
    - [Js]: the JavaScript values the client manipulates, ordered objects,
      object spread, optional chaining, [ToBoolean] and [JSON.stringify];
    - the environment: what the client imports ([print] of graphql and the
      [URL] class, as the interface [Imports]) and the part of
      [AbortController] and [fetch] that the client drives, as operations on
      a store;
    - the class [NanoQLClient], member by member, in a state-and-exception
      monad over that store;
    - the theorems about the class, and their instances on the inputs of
      the repository's test suite. *)

From Stdlib Require Import String Ascii List ZArith Bool Lia Arith.
From Stdlib Require Import DecimalString DecimalNat FinFun.
Import ListNotations.

Set Warnings "-register-all".

Local Open Scope list_scope.
Local Open Scope string_scope.

(* ===================================================================== *)
(** ** JavaScript values *)
(* ===================================================================== *)

Module Js.

(** The values that can flow through the client.  Objects keep their
    properties in own-property-key order; every key the client itself writes
    ([query], [variables], [operationName], [method], [headers], [body],
    [signal], [Content-Type]) is a non-index string key, for which that order
    is creation order.  [VHeaders], [VSignal] and [VError] are host objects:
    a [Headers] instance, the [AbortSignal] of the controller with the given
    identity, and an [Error] or [DOMException] with its [name] and
    [message].

    Outside the model: functions, symbols, accessors and prototypes, cyclic
    objects and BigInt (on which [JSON.stringify] throws), and numbers that
    are not integers or that [JSON.stringify] writes with an exponent (from
    [10^21] on): [VNumber z] stands for a number only for [z] of smaller
    magnitude that a double holds exactly.  Strings are sequences of bytes,
    read as ASCII text. *)
Inductive value : Type :=
| VUndefined
| VNull
| VBool (b : bool)
| VNumber (z : Z)
| VString (s : string)
| VArray (elems : list value)
| VObject (props : list (string * value))
| VHeaders (entries : list (string * string))
| VSignal (controller : nat)
| VError (name message : string).

Definition object : Type := list (string * value).

(** [o[k]] on an ordinary object: the first (and, in a well-formed object,
    only) property named [k]. *)
Fixpoint obj_get (k : string) (o : object) : option value :=
  match o with
  | [] => None
  | (k', v) :: rest => if String.eqb k k' then Some v else obj_get k rest
  end.

(** [o[k] = v] (CreateDataProperty / Set) for a key that sorts after the
    keys of [o], as every non-index key does: an existing property keeps its
    position and takes the new value, a new property goes last. *)
Fixpoint obj_set (k : string) (v : value) (o : object) : object :=
  match o with
  | [] => [(k, v)]
  | (k', v') :: rest =>
      if String.eqb k k' then (k', v) :: rest else (k', v') :: obj_set k v rest
  end.

Definition obj_keys_of {A : Type} (o : list (string * A)) : list string := map fst o.

Definition obj_keys (o : object) : list string := obj_keys_of o.

Definition obj_has (k : string) (o : object) : bool :=
  match obj_get k o with Some _ => true | None => false end.

(** An object has at most one property per key. *)
Definition wf_object (o : object) : Prop := NoDup (obj_keys o).

Definition string_of_nat (n : nat) : string :=
  NilEmpty.string_of_uint (Nat.to_uint n).

Definition string_of_Z (z : Z) : string :=
  NilEmpty.string_of_int (Z.to_int z).

(** The characters of a string, each as a one-character string. *)
Fixpoint chars (s : string) : list string :=
  match s with
  | EmptyString => []
  | String c rest => String c EmptyString :: chars rest
  end.

(** Pairs every element with its index, as a decimal string, from [i] on. *)
Fixpoint indexed {A : Type} (i : nat) (l : list A) : list (string * A) :=
  match l with
  | [] => []
  | x :: rest => (string_of_nat i, x) :: indexed (S i) rest
  end.

(** The own enumerable string-keyed properties of a value, in key order:
    what [{...v}] copies.  [undefined], [null], booleans and numbers have
    none; a string and an array expose their indices; a [Headers] instance,
    an [AbortSignal] and an error keep their data in internal slots or on
    the prototype and expose nothing. *)
Definition own_enumerable (v : value) : object :=
  match v with
  | VObject props => props
  | VArray elems => indexed 0 elems
  | VString s => indexed 0 (map VString (chars s))
  | VUndefined | VNull | VBool _ | VNumber _
  | VHeaders _ | VSignal _ | VError _ _ => []
  end.

(** [{...v}] at the head of an object literal: CopyDataProperties of [v]
    onto the new, still empty, object. *)
Definition spread (v : value) : object :=
  fold_left (fun acc kv => obj_set (fst kv) (snd kv) acc) (own_enumerable v) [].

(** [v?.k]: [undefined] when [v] is nullish, else the property [k] of [v].
    Only ordinary objects carry a data property; the other values would
    answer from their prototype, which has no member under the one name
    ([headers]) the client asks for. *)
Definition optional_get (v : value) (k : string) : value :=
  match v with
  | VObject props =>
      match obj_get k props with Some x => x | None => VUndefined end
  | _ => VUndefined
  end.

(** ToBoolean. *)
Definition ToBoolean (v : value) : bool :=
  match v with
  | VUndefined | VNull => false
  | VBool b => b
  | VNumber z => negb (Z.eqb z 0)
  | VString s => negb (String.eqb s "")
  | VArray _ | VObject _ | VHeaders _ | VSignal _ | VError _ _ => true
  end.

(** *** JSON.stringify *)

Definition hex_digit (n : nat) : ascii :=
  match n with
  | 0 => "0" | 1 => "1" | 2 => "2" | 3 => "3" | 4 => "4" | 5 => "5"
  | 6 => "6" | 7 => "7" | 8 => "8" | 9 => "9" | 10 => "a" | 11 => "b"
  | 12 => "c" | 13 => "d" | 14 => "e" | _ => "f"
  end%char.

Definition dquote : ascii := ascii_of_nat 34.

(** One character of a quoted JSON string. *)
Definition quote_char (c : ascii) : string :=
  let n := nat_of_ascii c in
  if Nat.eqb n 34 then String "\" (String dquote "")
  else if Nat.eqb n 92 then "\\"
  else if Nat.eqb n 8 then "\b"
  else if Nat.eqb n 12 then "\f"
  else if Nat.eqb n 10 then "\n"
  else if Nat.eqb n 13 then "\r"
  else if Nat.eqb n 9 then "\t"
  else if Nat.ltb n 32 then
    "\u00" ++ String (hex_digit (n / 16)) (String (hex_digit (n mod 16)) "")
  else String c "".

Fixpoint quote_body (s : string) : string :=
  match s with
  | EmptyString => ""
  | String c rest => quote_char c ++ quote_body rest
  end.

(** QuoteJSONString. *)
Definition QuoteJSONString (s : string) : string :=
  String dquote (quote_body s) ++ String dquote "".

Fixpoint join (sep : string) (parts : list string) : string :=
  match parts with
  | [] => ""
  | [p] => p
  | p :: rest => p ++ sep ++ join sep rest
  end.

(** SerializeJSONProperty: [None] stands for the [undefined] result.  An
    object member whose value serializes to [undefined] is left out, an
    array element of that kind is written [null]. *)
Fixpoint SerializeJSONProperty (v : value) : option string :=
  match v with
  | VUndefined => None
  | VNull => Some "null"
  | VBool true => Some "true"
  | VBool false => Some "false"
  | VNumber z => Some (string_of_Z z)
  | VString s => Some (QuoteJSONString s)
  | VArray elems =>
      let parts :=
        map (fun e => match SerializeJSONProperty e with
                      | Some t => t
                      | None => "null"
                      end) elems in
      Some ("[" ++ join "," parts ++ "]")
  | VObject props =>
      let members :=
        (fix go (ps : list (string * value)) : list string :=
           match ps with
           | [] => []
           | (k, x) :: rest =>
               match SerializeJSONProperty x with
               | Some t => (QuoteJSONString k ++ ":" ++ t) :: go rest
               | None => go rest
               end
           end) props in
      Some ("{" ++ join "," members ++ "}")
  | VHeaders _ | VSignal _ | VError _ _ => Some "{}"
  end.

(** The members of a serialized object, as the local function of
    [SerializeJSONProperty] computes them. *)
Fixpoint json_members (props : list (string * value)) : list string :=
  match props with
  | [] => []
  | (k, x) :: rest =>
      match SerializeJSONProperty x with
      | Some t => (QuoteJSONString k ++ ":" ++ t) :: json_members rest
      | None => json_members rest
      end
  end.

(** The JSON text of a value that has one. *)
Definition json_text (v : value) : string :=
  match SerializeJSONProperty v with Some t => t | None => "" end.

(** [JSON.stringify(v)]. *)
Definition JSON_stringify (v : value) : value :=
  match SerializeJSONProperty v with
  | Some t => VString t
  | None => VUndefined
  end.

End Js.

Import Js.

(* ===================================================================== *)
(** ** The environment of the client *)
(* ===================================================================== *)

(** The outcome of a synchronous call: a normal return or a thrown value. *)
Inductive completion (A : Type) : Type :=
| Return (a : A)
| Throw (e : value).
Arguments Return {A} a.
Arguments Throw {A} e.

(** What [nano-ql-client.ts] imports and does not define: [DocumentNode] and
    [print] from the graphql package, and the global [URL] class.  [print]
    either returns the text of the document or throws; [URL_parse] is the
    URL parser behind [new URL(text)], [None] being a parse failure, and
    [URL_toString] is the serializer behind [toString()].  A [URL] is the
    state of a URL object: the object can be changed by whoever holds it.
    The last two members are the messages the host puts in the error of a
    signal aborted without a reason and in the error of a network failure;
    only the names of these errors are the same on every host. *)
Class Imports : Type := {
  DocumentNode : Type;
  print : DocumentNode -> completion string;
  URL : Type;
  URL_parse : string -> option URL;
  URL_toString : URL -> string;
  abort_message : string;
  network_message : string
}.

Definition TypeError (message : string) : value := VError "TypeError" message.

(** The reason of a signal aborted without one. *)
Definition AbortError `{Imports} : value :=
  VError "AbortError" abort_message.


(** [new URL(text)] with no base: throws a [TypeError] when [text] does not
    parse as an absolute URL. *)
Definition new_URL `{Imports} (text : string) : completion URL :=
  match URL_parse text with
  | Some u => Return u
  | None => Throw (TypeError "Invalid URL")
  end.

(** The class instance: its two private readonly fields.  The fields are
    never assigned again; [_url] is the state of the URL object the field
    refers to, the instance's own when it was built from a text and the
    caller's when it was built from a URL object.  [_options] holds
    [undefined] when no default options were given. *)
Record NanoQLClient `{Imports} : Type := {
  _url : URL;
  _options : value
}.

(** What the transport delivers when a request completes. *)
Record Response : Type := {
  status : nat;
  body_text : string
}.

Inductive promise_state : Type :=
| Pending
| Fulfilled (r : Response)
| Rejected (reason : value).

(** The body of a response: still to be read, read to its end, or failed
    with a reason. *)
Inductive body_state : Type :=
| BodyReadable
| BodyRead
| BodyErrored (reason : value).

(** One call of [fetch]: its two arguments, the state of the promise it
    returned and, for when that promise is fulfilled, the state of the body
    of the response.  The promise is identified by the position of the
    call. *)
Record fetch_call : Type := {
  fc_url : string;
  fc_init : value;
  fc_state : promise_state;
  fc_body : body_state
}.

(** The store a method runs against: the receiver, the abort controllers
    created so far (a controller is identified by its position; [None] is a
    signal that is not aborted, [Some r] one aborted with reason [r]) and
    the calls of [fetch] made so far. *)
Record store `{Imports} : Type := {
  this : NanoQLClient;
  controllers : list (option value);
  fetches : list fetch_call
}.

(** Methods are state-passing computations that may throw. *)
Definition M `{Imports} (A : Type) : Type := store -> completion A * store.

Definition ret `{Imports} {A : Type} (a : A) : M A := fun s => (Return a, s).

Definition bind `{Imports} {A B : Type} (m : M A) (k : A -> M B) : M B :=
  fun s =>
    match m s with
    | (Return a, s') => k a s'
    | (Throw e, s') => (Throw e, s')
    end.

(** A synchronous call of an imported function. *)
Definition call `{Imports} {A : Type} (c : completion A) : M A := fun s => (c, s).

Declare Scope method_scope.
Delimit Scope method_scope with method.
Notation "x <- m ;; k" := (bind m (fun x => k))
  (at level 100, m at next level, right associativity) : method_scope.

(** *** AbortController and fetch

    The operations follow the DOM and Fetch standards as far as the promise
    returned by [fetch] is concerned: what [fetch] does with the other
    members of its init, and the body stream of a response, are left out. *)

(** The signal a request was made with: the [signal] member of its init. *)
Definition init_signal (init : value) : option nat :=
  match optional_get init "signal" with
  | VSignal c => Some c
  | _ => None
  end.

Definition controller_reason `{Imports} (c : nat) (s : store) : option value :=
  match nth_error (controllers s) c with
  | Some r => r
  | None => None
  end.

Fixpoint list_set {A : Type} (i : nat) (x : A) (l : list A) : list A :=
  match l, i with
  | [], _ => []
  | _ :: rest, 0 => x :: rest
  | y :: rest, S j => y :: list_set j x rest
  end.

(** [new AbortController()]: a new controller whose signal is not aborted. *)
Definition new_AbortController `{Imports} : M nat :=
  fun s =>
    (Return (length (controllers s)),
     {| this := this s;
        controllers := controllers s ++ [None];
        fetches := fetches s |}).

(** The abort steps of a request made with signal [c]: a pending promise
    is rejected with the reason; a settled one stays as it is, but the body
    of a response that is still readable fails with the reason. *)
Definition abort_fetch (c : nat) (reason : value) (f : fetch_call) : fetch_call :=
  match init_signal (fc_init f) with
  | Some c' =>
      if Nat.eqb c c'
      then match fc_state f, fc_body f with
           | Pending, _ =>
               {| fc_url := fc_url f; fc_init := fc_init f;
                  fc_state := Rejected reason; fc_body := fc_body f |}
           | Fulfilled _, BodyReadable =>
               {| fc_url := fc_url f; fc_init := fc_init f;
                  fc_state := fc_state f; fc_body := BodyErrored reason |}
           | _, _ => f
           end
      else f
  | None => f
  end.

(** [controller.abort(reason)]: nothing happens when the signal is already
    aborted; otherwise the signal takes the reason, or an [AbortError] when
    the reason is [undefined], and the requests made with it are aborted. *)
Definition AbortController_abort `{Imports} (c : nat) (reason : value) : M unit :=
  fun s =>
    match nth_error (controllers s) c with
    | Some None =>
        let r := match reason with VUndefined => AbortError | _ => reason end in
        (Return tt,
         {| this := this s;
            controllers := list_set c (Some r) (controllers s);
            fetches := map (abort_fetch c r) (fetches s) |})
    | _ => (Return tt, s)
    end.

(** [fetch(url, init)]: records the call and returns its promise, already
    rejected when the signal of [init] is aborted, pending otherwise. *)
Definition fetch `{Imports} (url : string) (init : value) : M nat :=
  fun s =>
    let st := match init_signal init with
              | Some c => match controller_reason c s with
                          | Some r => Rejected r
                          | None => Pending
                          end
              | None => Pending
              end in
    (Return (length (fetches s)),
     {| this := this s;
        controllers := controllers s;
        fetches := fetches s ++ [{| fc_url := url; fc_init := init; fc_state := st;
                                    fc_body := BodyReadable |}] |}).

(** The transport settles promise [p], unless it is settled already; a
    response arrives with its body still to be read. *)
Definition settle `{Imports} (p : nat) (outcome : promise_state) (s : store) : store :=
  match nth_error (fetches s) p with
  | Some f =>
      match fc_state f with
      | Pending =>
          {| this := this s;
             controllers := controllers s;
             fetches := list_set p {| fc_url := fc_url f; fc_init := fc_init f;
                                      fc_state := outcome;
                                      fc_body := BodyReadable |} (fetches s) |}
      | _ => s
      end
  | None => s
  end.

(** A network failure rejects with a [TypeError]. *)
Definition network_error `{Imports} : value := TypeError network_message.

Definition promise `{Imports} (p : nat) (s : store) : option promise_state :=
  option_map fc_state (nth_error (fetches s) p).

(** The state of the body of the response of promise [p]. *)
Definition body `{Imports} (p : nat) (s : store) : option body_state :=
  option_map fc_body (nth_error (fetches s) p).

(** The caller reads the body of the response of promise [p] to its end,
    as [response.json()] does: possible on a fulfilled promise whose body
    is still readable. *)
Definition read_body `{Imports} (p : nat) (s : store) : store :=
  match nth_error (fetches s) p with
  | Some f =>
      match fc_state f, fc_body f with
      | Fulfilled _, BodyReadable =>
          {| this := this s;
             controllers := controllers s;
             fetches := list_set p {| fc_url := fc_url f; fc_init := fc_init f;
                                      fc_state := fc_state f;
                                      fc_body := BodyRead |} (fetches s) |}
      | _, _ => s
      end
  | None => s
  end.


(* ===================================================================== *)
(** ** The class NanoQLClient *)
(* ===================================================================== *)

Section Client.

Context `{Imports}.

Local Open Scope method_scope.

(** The argument of [execute], after destructuring: a member that the
    caller left out is [undefined]. *)
Record ExecuteParams : Type := {
  document : DocumentNode;
  variables : value;
  operationName : value
}.

(** What [execute] returns: the promise of [fetch] and the [abort] closure,
    given by the controller it captured. *)
Record ExecuteResult : Type := {
  response : nat;
  abort_controller : nat
}.

(** [constructor(url, defaultOptions?)].  [None] is an omitted second
    argument. *)
Definition constructor (url : string + URL) (defaultOptions : option value)
  : completion NanoQLClient :=
  let parsed := match url with
                | inl text => new_URL text
                | inr u => Return u
                end in
  match parsed with
  | Return u =>
      Return {| _url := u;
                _options := match defaultOptions with
                            | Some o => o
                            | None => VUndefined
                            end |}
  | Throw e => Throw e
  end.

(** [get url()]. *)
Definition url : M string :=
  fun s => (Return (URL_toString (_url (this s))), s).

(** [get options()]. *)
Definition options : M value :=
  fun s => (Return (_options (this s)), s).

(** The [body] object of [execute]: [query], then [variables] and
    [operationName] when they are truthy. *)
Definition payload (query : string) (p : ExecuteParams) : object :=
  let body := [("query", VString query)] in
  let body := if ToBoolean (variables p)
              then obj_set "variables" (variables p) body else body in
  let body := if ToBoolean (operationName p)
              then obj_set "operationName" (operationName p) body else body in
  body.

(** The [headers] member of the request, from the default headers. *)
Definition request_headers (default_headers : value) : object :=
  let h := spread default_headers in
  let h := obj_set "Content-Type" (VString "application/json") h in
  h.

(** The [request] object literal of [execute], member by member: [opts] is
    [this.options] and [default_headers] is [this.options?.headers]. *)
Definition request (opts default_headers : value) (body : object) (signal : value)
  : object :=
  let r := spread opts in
  let r := obj_set "method" (VString "POST") r in
  let r := obj_set "headers" (VObject (request_headers default_headers)) r in
  let r := obj_set "body" (JSON_stringify (VObject body)) r in
  let r := obj_set "signal" signal r in
  r.

(** [execute({ document, variables, operationName })].  [JSON.stringify]
    never throws here: the values on which it does, BigInt and cyclic
    objects, are outside [value]; on those the program throws at that
    point, after [print] and before [fetch]. *)
Definition execute (p : ExecuteParams) : M ExecuteResult :=
  controller <- new_AbortController ;;
  let signal := VSignal controller in
  query <- call (print (document p)) ;;
  let body := payload query p in
  opts <- options ;;
  opts' <- options ;;
  let req := request opts (optional_get opts' "headers") body signal in
  u <- url ;;
  promise_id <- fetch u (VObject req) ;;
  ret {| response := promise_id; abort_controller := controller |}.

(** The call of [fetch] that [execute] makes in store [s] for a document
    printed as [q]. *)
Definition dispatched (s : store) (q : string) (p : ExecuteParams) : fetch_call :=
  {| fc_url := URL_toString (_url (this s));
     fc_init := VObject (request (_options (this s))
                                 (optional_get (_options (this s)) "headers")
                                 (payload q p)
                                 (VSignal (length (controllers s))));
     fc_state := Pending;
     fc_body := BodyReadable |}.

(** The text of the payload on the wire: the three members in their order,
    the optional ones when they are truthy. *)
Definition wire_text (q : string) (p : ExecuteParams) : string :=
  "{" ++ QuoteJSONString "query" ++ ":" ++ QuoteJSONString q
  ++ (if ToBoolean (variables p)
      then "," ++ QuoteJSONString "variables" ++ ":" ++ json_text (variables p)
      else "")
  ++ (if ToBoolean (operationName p)
      then "," ++ QuoteJSONString "operationName" ++ ":"
               ++ json_text (operationName p)
      else "")
  ++ "}".

(** The returned [abort(reason?)]: an omitted reason is [undefined]. *)
Definition abort (r : ExecuteResult) (reason : value) : M unit :=
  AbortController_abort (abort_controller r) reason.

(** *** Vocabulary of the statements *)

Definition content_type : string * value :=
  ("Content-Type", VString "application/json").

(** The default options of the merge test of the repository. *)
Definition bearer_options : value :=
  VObject [("headers", VObject [("Authorization", VString "Bearer token")]);
           ("cache", VString "no-store")].

(** The same call with an optional input left out. *)
Definition omit_variables (p : ExecuteParams) : ExecuteParams :=
  {| document := document p;
     variables := VUndefined;
     operationName := operationName p |}.

Definition omit_operationName (p : ExecuteParams) : ExecuteParams :=
  {| document := document p;
     variables := variables p;
     operationName := VUndefined |}.

(** The outbound operations so far: the arguments of every call of [fetch]. *)
Definition requests (s : store) : list (string * value) :=
  map (fun f => (fc_url f, fc_init f)) (fetches s).

(** The result [r] of a call is wired in [s]: its promise is that of a
    request made with the signal of the controller its [abort] captured,
    and that request is pending, or fulfilled with a body still readable,
    only while the signal is not aborted. *)
Definition wired (r : ExecuteResult) (s : store) : Prop :=
  exists f,
    nth_error (fetches s) (response r) = Some f /\
    init_signal (fc_init f) = Some (abort_controller r) /\
    abort_controller r < length (controllers s) /\
    (fc_state f = Pending -> controller_reason (abort_controller r) s = None) /\
    (forall resp, fc_state f = Fulfilled resp -> fc_body f = BodyReadable ->
                  controller_reason (abort_controller r) s = None).

(** *** What can happen to a store *)

(** The calls a holder of the instance can make, and the two ways the
    transport settles a request. *)
Inductive action : Type :=
| CallUrl
| CallOptions
| CallExecute (p : ExecuteParams)
| CallAbort (c : nat) (reason : value)
| NetRespond (p : nat) (r : Response)
| NetFail (p : nat)
| ReadBody (p : nat).

Definition step (s : store) (a : action) : store :=
  match a with
  | CallUrl => snd (url s)
  | CallOptions => snd (options s)
  | CallExecute p => snd (execute p s)
  | CallAbort c reason => snd (AbortController_abort c reason s)
  | NetRespond p r => settle p (Fulfilled r) s
  | NetFail p => settle p (Rejected network_error) s
  | ReadBody p => read_body p s
  end.

Definition run (s : store) (acts : list action) : store := fold_left step acts s.

Definition is_execute (a : action) : bool :=
  match a with CallExecute _ => true | _ => false end.

(** The store of a new instance before any call. *)
Definition initial (c : NanoQLClient) : store :=
  {| this := c; controllers := []; fetches := [] |}.


(** *** The holder of the URL object

    An instance built from a text owns the URL object it made.  An
    instance built from a URL object keeps that very object: whoever passed
    it still holds it and can change it, say by assigning its [pathname],
    at any time between two calls. *)
Inductive event : Type :=
| Call (a : action)
| HolderSetsUrl (u : URL).

Definition occur (s : store) (e : event) : store :=
  match e with
  | Call a => step s a
  | HolderSetsUrl u =>
      {| this := {| _url := u; _options := _options (this s) |};
         controllers := controllers s;
         fetches := fetches s |}
  end.

Definition happen (s : store) (evs : list event) : store := fold_left occur evs s.

(** The state of a URL object that was [u] before the events. *)
Definition current_url (u : URL) (evs : list event) : URL :=
  fold_left (fun u0 e => match e with HolderSetsUrl u' => u' | Call _ => u0 end)
            evs u.

(** *** Vocabulary of the statements on sequences of calls *)

(** The number of calls of [execute] that return, in a sequence of actions
    that starts in [s]. *)
Fixpoint returned (s : store) (acts : list action) : nat :=
  match acts with
  | [] => 0
  | a :: rest =>
      match a with
      | CallExecute p =>
          match fst (execute p s) with Return _ => 1 | Throw _ => 0 end
      | _ => 0
      end + returned (step s a) rest
  end.

(** A call of [execute] whose document prints. *)
Definition prints (a : action) : bool :=
  match a with
  | CallExecute p =>
      match print (document p) with Return _ => true | Throw _ => false end
  | _ => false
  end.

(** The shape of a request of instance [c]: sent to its endpoint, as a POST
    with the JSON content type and a text as body. *)
Definition well_formed_request (c : NanoQLClient) (u : string) (init : value)
  : Prop :=
  u = URL_toString (_url c) /\
  exists (req hs : object) (text : string),
    init = VObject req /\
    obj_get "method" req = Some (VString "POST") /\
    obj_get "headers" req = Some (VObject hs) /\
    obj_get "Content-Type" hs = Some (VString "application/json") /\
    obj_get "body" req = Some (VString text).

(** Every request was made with the signal of a controller that exists, and
    a later request with the signal of a later controller. *)
Definition signals_in_order (s : store) : Prop :=
  (forall i u init,
     nth_error (requests s) i = Some (u, init) ->
     exists a, init_signal init = Some a /\ a < length (controllers s)) /\
  (forall i j u v x y a b,
     i < j ->
     nth_error (requests s) i = Some (u, x) ->
     nth_error (requests s) j = Some (v, y) ->
     init_signal x = Some a -> init_signal y = Some b -> a < b).

End Client.

(* ===================================================================== *)
(** ** A small environment to run the model on *)
(* ===================================================================== *)

Module Demo.

(** Documents are given by their printed text; [None] is a value that
    [print] rejects. *)
Definition doc : Type := option string.

Definition demo_print (d : doc) : completion string :=
  match d with
  | Some text => Return text
  | None => Throw (VError "Error" "Invalid AST Node")
  end.

(** A URL is kept as its text; only [https://] URLs parse, and a URL with
    nothing after the host gets the path [/]. *)
Definition demo_parse (text : string) : option string :=
  if String.prefix "https://" text
  then Some (if String.eqb text "https://example.com" then text ++ "/" else text)
  else None.

Definition imports : Imports := {|
  DocumentNode := doc;
  print := demo_print;
  URL := string;
  URL_parse := demo_parse;
  URL_toString := fun u => u;
  abort_message := "signal is aborted without reason";
  network_message := "Failed to fetch"
|}.

#[local] Existing Instance imports.

Definition hello : ExecuteParams :=
  {| document := Some "{ hello }"; variables := VUndefined; operationName := VUndefined |}.

Definition get_user_text : string :=
  "query GetUser($id: ID!) { user(id: $id) { name } }".

Definition get_user : ExecuteParams :=
  {| document := Some get_user_text;
     variables := VObject [("id", VString "123")];
     operationName := VString "GetUser" |}.

Definition unnamed : ExecuteParams :=
  {| document := Some "{ hello }"; variables := VNull; operationName := VString "" |}.

Definition malformed : ExecuteParams :=
  {| document := None; variables := VUndefined; operationName := VUndefined |}.

Definition client (opts : value) : NanoQLClient :=
  {| _url := "https://example.com/graphql"; _options := opts |}.

(** A fresh instance with the default options of the merge test. *)
Definition start : store := initial (client bearer_options).

(** Default headers given as a [Headers] instance and as an array of pairs. *)
Definition headers_instance : value :=
  VObject [("headers", VHeaders [("Authorization", "Bearer token")])].

Definition headers_pairs : value :=
  VObject [("headers", VArray [VArray [VString "Authorization"; VString "Bearer token"]])].

(** Three calls, one of them on a malformed document, an abort and a
    transport failure. *)
Definition busy : list action :=
  [CallExecute hello; CallExecute malformed; CallAbort 0 VUndefined;
   CallExecute get_user; NetFail 1].

Definition no_variables : ExecuteParams :=
  {| document := Some "{ hello }"; variables := VObject []; operationName := VUndefined |}.

Definition lower_case_options : value :=
  VObject [("headers", VObject [("content-type", VString "text/plain")])].

Definition plain_text_options : value :=
  VObject [("headers", VObject [("Accept", VString "text/html");
                                ("Content-Type", VString "text/plain");
                                ("X-Trace", VString "1")])].



End Demo.

(* ===================================================================== *)
(** ** Lemmas on objects *)
(* ===================================================================== *)

Section ObjectLemmas.

Lemma obj_get_set_eq (k : string) (v : value) (o : object) :
  obj_get k (obj_set k v o) = Some v.
Proof.
  induction o as [|[k' v'] o IH]; simpl.
  - now rewrite String.eqb_refl.
  - destruct (String.eqb k k') eqn:E; simpl; rewrite E; auto.
Qed.

Lemma obj_get_set_neq (k k' : string) (v : value) (o : object) :
  k <> k' -> obj_get k' (obj_set k v o) = obj_get k' o.
Proof.
  intros Hne. induction o as [|[k2 v2] o IH]; simpl.
  - destruct (String.eqb_spec k' k); [congruence | reflexivity].
  - destruct (String.eqb_spec k k2) as [->|Hk]; simpl.
    + destruct (String.eqb_spec k' k2); [congruence | reflexivity].
    + now rewrite IH.
Qed.

Lemma obj_get_app (k : string) (o1 o2 : object) :
  obj_get k (o1 ++ o2)%list =
  match obj_get k o1 with Some v => Some v | None => obj_get k o2 end.
Proof.
  induction o1 as [|[k1 v1] o1 IH]; simpl; [reflexivity|].
  now destruct (String.eqb k k1).
Qed.

Lemma obj_get_None (k : string) (o : object) :
  obj_get k o = None <-> ~ In k (obj_keys o).
Proof.
  induction o as [|[k1 v1] o IH]; simpl.
  - tauto.
  - destruct (String.eqb_spec k k1) as [->|Hk].
    + split; [discriminate | intros Hn; exfalso; apply Hn; now left].
    + rewrite IH. split; intros Hn; [intros [?|?]; [congruence | tauto] | tauto].
Qed.

Lemma obj_set_fresh (k : string) (v : value) (o : object) :
  obj_get k o = None -> obj_set k v o = (o ++ [(k, v)])%list.
Proof.
  induction o as [|[k1 v1] o IH]; simpl; [reflexivity|].
  destruct (String.eqb k k1); [discriminate|].
  intros Hn. now rewrite IH.
Qed.

(** Copying the properties of a well-formed object onto an object that has
    none of them appends them in order. *)
Lemma copy_fresh (props acc : object) :
  wf_object props ->
  (forall k, In k (obj_keys props) -> obj_get k acc = None) ->
  fold_left (fun a kv => obj_set (fst kv) (snd kv) a) props acc = (acc ++ props)%list.
Proof.
  revert acc. induction props as [|[k v] props IH]; intros acc Hwf Hfresh; simpl.
  - now rewrite app_nil_r.
  - unfold wf_object in Hwf. simpl in Hwf. inversion Hwf as [|? ? Hnotin Hnd]; subst.
    rewrite obj_set_fresh by (apply Hfresh; now left).
    rewrite IH.
    + now rewrite <- app_assoc.
    + exact Hnd.
    + intros k' Hin. rewrite obj_get_app.
      rewrite (Hfresh k') by now right.
      simpl. destruct (String.eqb_spec k' k) as [->|]; [contradiction | reflexivity].
Qed.

Lemma spread_wf (v : value) :
  wf_object (own_enumerable v) -> spread v = own_enumerable v.
Proof.
  intros Hwf. unfold spread. now rewrite copy_fresh.
Qed.

Lemma string_of_nat_inj (n m : nat) :
  string_of_nat n = string_of_nat m -> n = m.
Proof.
  unfold string_of_nat. intros E.
  apply DecimalNat.Unsigned.to_uint_inj.
  assert (Some (Nat.to_uint n) = Some (Nat.to_uint m)) as Hs.
  { rewrite <- (NilEmpty.usu (Nat.to_uint n)), <- (NilEmpty.usu (Nat.to_uint m)).
    now rewrite E. }
  now injection Hs.
Qed.

Lemma indexed_keys {A : Type} (i : nat) (l : list A) :
  obj_keys_of (indexed i l) = map string_of_nat (seq i (length l)).
Proof.
  revert i. induction l as [|x l IH]; intros i; simpl; [reflexivity|].
  now rewrite IH.
Qed.

End ObjectLemmas.

(* ===================================================================== *)
(** ** What one call of execute does *)
(* ===================================================================== *)

Section ExecuteLemmas.

Context `{Imports}.

Lemma nth_error_snoc {A : Type} (l : list A) (x : A) :
  nth_error (l ++ [x])%list (length l) = Some x.
Proof.
  rewrite nth_error_app2 by lia. now rewrite Nat.sub_diag.
Qed.

Lemma request_signal (opts hs : value) (body : object) (signal : value) :
  obj_get "signal" (request opts hs body signal) = Some signal.
Proof. unfold request. apply obj_get_set_eq. Qed.

Lemma init_signal_request (opts hs : value) (body : object) (c : nat) :
  init_signal (VObject (request opts hs body (VSignal c))) = Some c.
Proof.
  unfold init_signal, optional_get. now rewrite request_signal.
Qed.

(** When the document prints, [execute] returns, having created one
    controller and made one call of [fetch]. *)
Lemma execute_returns (s : store) (p : ExecuteParams) (q : string) :
  print (document p) = Return q ->
  execute p s =
  (Return {| response := length (fetches s);
             abort_controller := length (controllers s) |},
   {| this := this s;
      controllers := (controllers s ++ [None])%list;
      fetches := (fetches s ++ [dispatched s q p])%list |}).
Proof.
  intros Hq.
  unfold execute, bind, new_AbortController, call, options, url, fetch, ret.
  cbn [this controllers fetches]. rewrite Hq.
  rewrite init_signal_request.
  unfold controller_reason. cbn [controllers].
  now rewrite nth_error_snoc.
Qed.

(** When [print] throws, so does [execute], after the controller was
    created and before anything else. *)
Lemma execute_throws (s : store) (p : ExecuteParams) (e : value) :
  print (document p) = Throw e ->
  execute p s =
  (Throw e,
   {| this := this s;
      controllers := (controllers s ++ [None])%list;
      fetches := fetches s |}).
Proof.
  intros He.
  unfold execute, bind, new_AbortController, call.
  cbn [this controllers fetches]. now rewrite He.
Qed.

End ExecuteLemmas.

(* ===================================================================== *)
(** ** The wire payload *)
(* ===================================================================== *)

Section Payload.

Context `{Imports}.

Lemma serialize_object (props : list (string * value)) :
  SerializeJSONProperty (VObject props) =
  Some ("{" ++ join "," (json_members props) ++ "}").
Proof.
  reflexivity.
Qed.

Lemma truthy_serializes (v : value) :
  ToBoolean v = true -> SerializeJSONProperty v = Some (json_text v).
Proof.
  unfold json_text.
  destruct v as [| |[|]| | | | | | |]; simpl; intros Ht;
    first [discriminate | reflexivity].
Qed.

Lemma truthy_defined (v : value) :
  ToBoolean v = true -> v <> VUndefined /\ v <> VNull /\ v <> VString "".
Proof.
  intros Ht. repeat split; intros ->; discriminate.
Qed.

(** The members of the payload, in order. *)
Lemma payload_members (q : string) (p : ExecuteParams) :
  payload q p =
  ([("query", VString q)]
   ++ (if ToBoolean (variables p) then [("variables", variables p)] else [])
   ++ (if ToBoolean (operationName p)
       then [("operationName", operationName p)] else []))%list.
Proof.
  unfold payload.
  destruct (ToBoolean (variables p)), (ToBoolean (operationName p)); reflexivity.
Qed.

Lemma string_app_assoc (a b c : string) : (a ++ b) ++ c = a ++ b ++ c.
Proof.
  induction a as [|ch a IH]; simpl; [reflexivity | now rewrite IH].
Qed.

Lemma payload_wire_text (q : string) (p : ExecuteParams) :
  JSON_stringify (VObject (payload q p)) = VString (wire_text q p).
Proof.
  unfold JSON_stringify, wire_text.
  rewrite serialize_object, payload_members. f_equal.
  destruct (ToBoolean (variables p)) eqn:Hv, (ToBoolean (operationName p)) eqn:Ho;
    cbn [app json_members SerializeJSONProperty join];
    rewrite ?(truthy_serializes _ Hv), ?(truthy_serializes _ Ho);
    cbn [join]; rewrite ?string_app_assoc; reflexivity.
Qed.

(** C1. Whenever the document prints, [execute] returns after one call of
    [fetch] whose [body] is the JSON text of an object in which [query] is
    the printed document; [variables] and [operationName] occur only when
    the caller provided them and then hold exactly what was provided, never
    [null], [undefined] or the empty string; an input left out has no key; a
    truthy input always has its key; and the keys come in the order
    [query], [variables], [operationName], also in the text on the wire. *)
Theorem execute_wire_payload (s : store) (p : ExecuteParams) (q : string) :
  print (document p) = Return q ->
  exists (r : ExecuteResult) (s' : store) (sent : fetch_call) (body : object),
    execute p s = (Return r, s') /\
    nth_error (fetches s') (response r) = Some sent /\
    optional_get (fc_init sent) "body" = JSON_stringify (VObject body) /\
    obj_get "query" body = Some (VString q) /\
    (forall v, obj_get "variables" body = Some v ->
               v = variables p /\ variables p <> VUndefined) /\
    (forall v, obj_get "operationName" body = Some v ->
               v = operationName p /\ operationName p <> VUndefined) /\
    (variables p = VUndefined -> obj_has "variables" body = false) /\
    (operationName p = VUndefined -> obj_has "operationName" body = false) /\
    (ToBoolean (variables p) = true ->
     obj_get "variables" body = Some (variables p)) /\
    (ToBoolean (operationName p) = true ->
     obj_get "operationName" body = Some (operationName p)) /\
    (forall k v, k <> "query" -> obj_get k body = Some v ->
                 v <> VUndefined /\ v <> VNull /\ v <> VString "") /\
    obj_keys body =
      filter (fun k => obj_has k body) ["query"; "variables"; "operationName"] /\
    JSON_stringify (VObject body) = VString (wire_text q p).
Proof.
  intros Hq.
  exists {| response := length (fetches s);
            abort_controller := length (controllers s) |}.
  eexists. exists (dispatched s q p), (payload q p).
  split; [apply (execute_returns s p q Hq)|].
  split; [cbn [fetches response]; apply nth_error_snoc|].
  split.
  { unfold dispatched, optional_get, request. cbn [fc_init].
    rewrite obj_get_set_neq by discriminate. now rewrite obj_get_set_eq. }
  rewrite payload_wire_text, payload_members.
  destruct (ToBoolean (variables p)) eqn:Hv, (ToBoolean (operationName p)) eqn:Ho;
    cbn [app obj_get obj_has];
    repeat apply conj; try reflexivity; intros;
    repeat match goal with
           | Hg : (if String.eqb ?a ?b then _ else _) = _ |- _ =>
               destruct (String.eqb_spec a b)
           end;
    try discriminate; try contradiction;
    repeat match goal with
           | Hg : Some _ = Some _ |- _ => injection Hg as <-
           | E : ?x = VUndefined, T : ToBoolean ?x = true |- _ =>
               rewrite E in T; discriminate T
           end;
    try solve [ apply truthy_defined; assumption
              | split; [reflexivity | apply truthy_defined; assumption] ].
Qed.

End Payload.

(* ===================================================================== *)
(** ** The request options *)
(* ===================================================================== *)

Section RequestOptions.

Context `{Imports}.

Lemma request_get (opts hs : value) (body : object) (signal : value) (k : string) :
  wf_object (own_enumerable opts) ->
  obj_get k (request opts hs body signal) =
  if String.eqb k "signal" then Some signal
  else if String.eqb k "body" then Some (JSON_stringify (VObject body))
  else if String.eqb k "headers" then Some (VObject (request_headers hs))
  else if String.eqb k "method" then Some (VString "POST")
  else obj_get k (own_enumerable opts).
Proof.
  intros Hwf. unfold request.
  destruct (String.eqb_spec k "signal") as [->|Hs].
  { apply obj_get_set_eq. }
  rewrite obj_get_set_neq by congruence.
  destruct (String.eqb_spec k "body") as [->|Hb].
  { apply obj_get_set_eq. }
  rewrite obj_get_set_neq by congruence.
  destruct (String.eqb_spec k "headers") as [->|Hh].
  { apply obj_get_set_eq. }
  rewrite obj_get_set_neq by congruence.
  destruct (String.eqb_spec k "method") as [->|Hm].
  { apply obj_get_set_eq. }
  rewrite obj_get_set_neq by congruence.
  now rewrite spread_wf.
Qed.

Lemma request_headers_get (hs : value) (h : string) :
  wf_object (own_enumerable hs) ->
  obj_get h (request_headers hs) =
  if String.eqb h "Content-Type" then Some (VString "application/json")
  else obj_get h (own_enumerable hs).
Proof.
  intros Hwf. unfold request_headers.
  destruct (String.eqb_spec h "Content-Type") as [->|Hc].
  { apply obj_get_set_eq. }
  rewrite obj_get_set_neq by congruence.
  now rewrite spread_wf.
Qed.

(** C2. Whenever the document prints, the options handed to [fetch] are the
    default options overlaid, key by key, with [method] POST, the merged
    [headers], the serialized payload as [body] and the signal of this
    call; the merged headers are the default headers overlaid with
    [Content-Type: application/json].  With the default options
    [{ headers: { Authorization: "Bearer token" }, cache: "no-store" }] the
    request carries [cache: "no-store"] and exactly the two headers.  The
    default options and the default headers are taken with one property
    per key, as every object has. *)
Theorem execute_request_options (s : store) (p : ExecuteParams) (q : string) :
  print (document p) = Return q ->
  wf_object (own_enumerable (_options (this s))) ->
  wf_object (own_enumerable (optional_get (_options (this s)) "headers")) ->
  exists (r : ExecuteResult) (s' : store) (sent : fetch_call) (req hs : object),
    execute p s = (Return r, s') /\
    nth_error (fetches s') (response r) = Some sent /\
    fc_init sent = VObject req /\
    (forall k,
       obj_get k req =
       if String.eqb k "signal" then Some (VSignal (abort_controller r))
       else if String.eqb k "body"
            then Some (JSON_stringify (VObject (payload q p)))
       else if String.eqb k "headers" then Some (VObject hs)
       else if String.eqb k "method" then Some (VString "POST")
       else obj_get k (own_enumerable (_options (this s)))) /\
    (forall h,
       obj_get h hs =
       if String.eqb h "Content-Type" then Some (VString "application/json")
       else obj_get h (own_enumerable (optional_get (_options (this s)) "headers"))) /\
    (_options (this s) = bearer_options ->
     obj_get "cache" req = Some (VString "no-store") /\
     hs = [("Authorization", VString "Bearer token"); content_type]).
Proof.
  intros Hq Hwf Hwfh.
  exists {| response := length (fetches s);
            abort_controller := length (controllers s) |}.
  eexists. exists (dispatched s q p).
  exists (request (_options (this s)) (optional_get (_options (this s)) "headers")
                  (payload q p) (VSignal (length (controllers s)))).
  exists (request_headers (optional_get (_options (this s)) "headers")).
  split; [apply (execute_returns s p q Hq)|].
  split; [cbn [fetches response]; apply nth_error_snoc|].
  split; [reflexivity|].
  split; [intros k; now apply request_get|].
  split; [intros h; now apply request_headers_get|].
  intros Hopts. rewrite Hopts in *.
  split.
  - now rewrite request_get.
  - reflexivity.
Qed.

End RequestOptions.

(* ===================================================================== *)
(** ** Failure before dispatch, construction, falsy inputs *)
(* ===================================================================== *)

Section Failures.

Context `{Imports}.

(** C3. When [print] throws on the document, [execute] throws the same
    value to its caller, no call of [fetch] has been made and the receiver
    is as it was. *)
Theorem execute_malformed_document (s : store) (p : ExecuteParams) (e : value) :
  print (document p) = Throw e ->
  exists s' : store,
    execute p s = (Throw e, s') /\
    fetches s' = fetches s /\
    requests s' = requests s /\
    this s' = this s.
Proof.
  intros He. eexists. split; [apply (execute_throws s p e He)|].
  repeat split.
Qed.

(** C5. Construction from a text throws exactly when the text does not
    parse as a URL, and then there is no instance; when the text parses,
    construction returns the instance holding the parsed URL and the
    default options. *)
Theorem constructor_text_endpoint (text : string) (d : option value) :
  (URL_parse text = None ->
   constructor (inl text) d = Throw (TypeError "Invalid URL")) /\
  (forall u, URL_parse text = Some u ->
     constructor (inl text) d =
     Return {| _url := u;
               _options := match d with Some o => o | None => VUndefined end |}) /\
  ((exists e, constructor (inl text) d = Throw e) <-> URL_parse text = None) /\
  ((exists c, constructor (inl text) d = Return c) <-> URL_parse text <> None).
Proof.
  unfold constructor, new_URL.
  destruct (URL_parse text) as [u|] eqn:Hp.
  - repeat split; try discriminate; try congruence.
    + intros [e He]. discriminate He.
    + intros _. eexists. reflexivity.
  - repeat split; try discriminate; try congruence.
    + intros _. eexists. reflexivity.
    + intros [c Hc]. discriminate Hc.
Qed.

Lemma payload_omit_variables (q : string) (p : ExecuteParams) :
  ToBoolean (variables p) = false -> payload q (omit_variables p) = payload q p.
Proof.
  intros Hv. unfold payload, omit_variables. cbn [variables operationName ToBoolean].
  now rewrite Hv.
Qed.

Lemma payload_omit_operationName (q : string) (p : ExecuteParams) :
  ToBoolean (operationName p) = false ->
  payload q (omit_operationName p) = payload q p.
Proof.
  intros Ho. unfold payload, omit_operationName.
  cbn [variables operationName ToBoolean]. now rewrite Ho.
Qed.

Lemma falsy_values (v : value) :
  ToBoolean v = false <->
  v = VUndefined \/ v = VNull \/ v = VBool false \/ v = VNumber 0 \/ v = VString "".
Proof.
  split.
  - destruct v as [| |[|]|z|t| | | | |]; simpl; intros Hf; try discriminate; auto.
    + apply negb_false_iff, Z.eqb_eq in Hf. subst. auto.
    + apply negb_false_iff, String.eqb_eq in Hf. subst. auto 6.
  - intros [-> | [-> | [-> | [-> | ->]]]]; reflexivity.
Qed.

(** C9. The optional members are included by truthiness: a call whose
    [operationName] (or [variables]) is falsy, in particular the empty
    string, does exactly what the call without that input does, and its
    payload has no such key.  The falsy values are [undefined], [null],
    [false], [0] and the empty string. *)
Theorem falsy_inputs_are_omitted (s : store) (p : ExecuteParams) :
  (ToBoolean (operationName p) = false ->
   execute p s = execute (omit_operationName p) s) /\
  (ToBoolean (variables p) = false ->
   execute p s = execute (omit_variables p) s) /\
  (forall q, print (document p) = Return q ->
     exists (r : ExecuteResult) (s' : store) (sent : fetch_call) (body : object),
       execute p s = (Return r, s') /\
       nth_error (fetches s') (response r) = Some sent /\
       optional_get (fc_init sent) "body" = JSON_stringify (VObject body) /\
       (ToBoolean (operationName p) = false -> obj_has "operationName" body = false) /\
       (ToBoolean (variables p) = false -> obj_has "variables" body = false)) /\
  ToBoolean (VString "") = false /\
  (forall v, ToBoolean v = false <->
     v = VUndefined \/ v = VNull \/ v = VBool false \/ v = VNumber 0 \/ v = VString "").
Proof.
  repeat apply conj.
  - intros Ho. destruct (print (document p)) as [q|e] eqn:Hq.
    + rewrite (execute_returns s p q Hq), (execute_returns s (omit_operationName p) q Hq).
      unfold dispatched. now rewrite payload_omit_operationName.
    + now rewrite (execute_throws s p e Hq), (execute_throws s (omit_operationName p) e Hq).
  - intros Hv. destruct (print (document p)) as [q|e] eqn:Hq.
    + rewrite (execute_returns s p q Hq), (execute_returns s (omit_variables p) q Hq).
      unfold dispatched. now rewrite payload_omit_variables.
    + now rewrite (execute_throws s p e Hq), (execute_throws s (omit_variables p) e Hq).
  - intros q Hq.
    exists {| response := length (fetches s);
              abort_controller := length (controllers s) |}.
    eexists. exists (dispatched s q p), (payload q p).
    split; [apply (execute_returns s p q Hq)|].
    split; [cbn [fetches response]; apply nth_error_snoc|].
    split.
    { unfold dispatched, optional_get, request. cbn [fc_init].
      rewrite obj_get_set_neq by discriminate. now rewrite obj_get_set_eq. }
    rewrite payload_members.
    split; intros Hf; rewrite Hf;
      destruct (ToBoolean (variables p)), (ToBoolean (operationName p));
      try discriminate; reflexivity.
  - reflexivity.
  - apply falsy_values.
Qed.

End Failures.

(* ===================================================================== *)
(** ** How a store evolves *)
(* ===================================================================== *)

Section Evolution.

Context `{Imports}.

Lemma length_list_set {A : Type} (i : nat) (x : A) (l : list A) :
  length (list_set i x l) = length l.
Proof.
  revert i. induction l as [|y l IH]; intros [|i]; simpl; auto.
Qed.

Lemma nth_error_list_set_eq {A : Type} (i : nat) (x : A) (l : list A) :
  i < length l -> nth_error (list_set i x l) i = Some x.
Proof.
  revert i. induction l as [|y l IH]; intros [|i]; simpl; intros Hi;
    try lia; [reflexivity | apply IH; lia].
Qed.

Lemma nth_error_list_set_neq {A : Type} (i j : nat) (x : A) (l : list A) :
  i <> j -> nth_error (list_set i x l) j = nth_error l j.
Proof.
  revert i j. induction l as [|y l IH]; intros [|i] [|j] Hij; simpl; auto.
  congruence.
Qed.

Lemma map_list_set {A B : Type} (g : A -> B) (i : nat) (x : A) (l : list A) :
  map g (list_set i x l) = list_set i (g x) (map g l).
Proof.
  revert i. induction l as [|y l IH]; intros [|i]; simpl; auto.
  now rewrite IH.
Qed.

Lemma list_set_same {A : Type} (i : nat) (x : A) (l : list A) :
  nth_error l i = Some x -> list_set i x l = l.
Proof.
  revert i. induction l as [|y l IH]; intros [|i]; simpl; intros E; auto.
  - now injection E as ->.
  - now rewrite IH.
Qed.

(** A call of [execute] either returned, after one new controller and one
    new request, or threw what [print] threw, after one new controller. *)
Lemma execute_cases (s : store) (p : ExecuteParams) :
  (exists q, print (document p) = Return q /\
     execute p s =
     (Return {| response := length (fetches s);
                abort_controller := length (controllers s) |},
      {| this := this s;
         controllers := (controllers s ++ [None])%list;
         fetches := (fetches s ++ [dispatched s q p])%list |})) \/
  (exists e, print (document p) = Throw e /\
     execute p s =
     (Throw e,
      {| this := this s;
         controllers := (controllers s ++ [None])%list;
         fetches := fetches s |})).
Proof.
  destruct (print (document p)) as [q|e] eqn:Hq.
  - left. exists q. split; [reflexivity | now apply execute_returns].
  - right. exists e. split; [reflexivity | now apply execute_throws].
Qed.

Lemma abort_fetch_init (c : nat) (reason : value) (f : fetch_call) :
  fc_init (abort_fetch c reason f) = fc_init f /\
  fc_url (abort_fetch c reason f) = fc_url f.
Proof.
  unfold abort_fetch.
  destruct (init_signal (fc_init f)) as [c'|]; auto.
  destruct (Nat.eqb c c'); auto.
  destruct (fc_state f), (fc_body f); auto.
Qed.

Lemma abort_fetch_settled (c : nat) (reason : value) (f : fetch_call) :
  fc_state f <> Pending -> fc_state (abort_fetch c reason f) = fc_state f.
Proof.
  unfold abort_fetch. intros Hne.
  destruct (init_signal (fc_init f)) as [c'|]; auto.
  destruct (Nat.eqb c c'); auto.
  destruct (fc_state f) eqn:Hs; [congruence| |congruence].
  destruct (fc_body f); cbn [fc_state]; congruence.
Qed.

Lemma abort_fetch_readable (c : nat) (reason : value) (f : fetch_call)
    (resp : Response) :
  init_signal (fc_init f) = Some c -> fc_state f = Fulfilled resp ->
  fc_body f = BodyReadable ->
  fc_body (abort_fetch c reason f) = BodyErrored reason.
Proof.
  unfold abort_fetch. intros -> -> ->. now rewrite Nat.eqb_refl.
Qed.

Lemma abort_fetch_body_kept (c : nat) (reason : value) (f : fetch_call) :
  (forall resp, fc_state f = Fulfilled resp -> fc_body f <> BodyReadable) ->
  fc_body (abort_fetch c reason f) = fc_body f.
Proof.
  unfold abort_fetch. intros Hk.
  destruct (init_signal (fc_init f)) as [c'|]; auto.
  destruct (Nat.eqb c c'); auto.
  destruct (fc_state f) as [|resp|e] eqn:Hs; auto.
  destruct (fc_body f) eqn:Hb; auto.
  exfalso. now apply (Hk resp).
Qed.

Lemma abort_fetch_other (c c' : nat) (reason : value) (f : fetch_call) :
  init_signal (fc_init f) = Some c' -> c <> c' -> abort_fetch c reason f = f.
Proof.
  unfold abort_fetch. intros -> Hc.
  destruct (Nat.eqb_spec c c'); [contradiction | reflexivity].
Qed.

Lemma abort_fetch_pending (c : nat) (reason : value) (f : fetch_call) :
  init_signal (fc_init f) = Some c -> fc_state f = Pending ->
  fc_state (abort_fetch c reason f) = Rejected reason.
Proof.
  unfold abort_fetch. intros -> ->. now rewrite Nat.eqb_refl.
Qed.

(** Every action leaves the receiver as it is. *)
Lemma this_step (s : store) (a : action) : this (step s a) = this s.
Proof.
  destruct a as [| |p|c reason|pid r|pid|pid]; simpl; try reflexivity.
  - destruct (execute_cases s p) as [(q & _ & ->)|(e & _ & ->)]; reflexivity.
  - unfold AbortController_abort.
    destruct (nth_error (controllers s) c) as [[r|]|]; reflexivity.
  - unfold settle. destruct (nth_error (fetches s) pid) as [f|]; [|reflexivity].
    destruct (fc_state f); reflexivity.
  - unfold settle. destruct (nth_error (fetches s) pid) as [f|]; [|reflexivity].
    destruct (fc_state f); reflexivity.
  - unfold read_body. destruct (nth_error (fetches s) pid) as [f|]; [|reflexivity].
    destruct (fc_state f), (fc_body f); reflexivity.
Qed.

Lemma run_cons (s : store) (a : action) (acts : list action) :
  run s (a :: acts) = run (step s a) acts.
Proof. reflexivity. Qed.

Lemma this_run (s : store) (acts : list action) : this (run s acts) = this s.
Proof.
  revert s. induction acts as [|a acts IH]; intros s; [reflexivity|].
  now rewrite run_cons, IH, this_step.
Qed.

Lemma settle_requests (pid : nat) (outcome : promise_state) (s : store) :
  requests (settle pid outcome s) = requests s /\
  controllers (settle pid outcome s) = controllers s.
Proof.
  unfold settle, requests.
  destruct (nth_error (fetches s) pid) as [f|] eqn:Hf; [|auto].
  destruct (fc_state f); auto.
  cbn [fetches controllers]. split; [|reflexivity].
  rewrite map_list_set. cbn [fc_url fc_init].
  apply list_set_same. now rewrite nth_error_map, Hf.
Qed.

Lemma read_body_requests (pid : nat) (s : store) :
  requests (read_body pid s) = requests s /\
  controllers (read_body pid s) = controllers s.
Proof.
  unfold read_body, requests.
  destruct (nth_error (fetches s) pid) as [f|] eqn:Hf; [|auto].
  destruct (fc_state f); auto. destruct (fc_body f); auto.
  cbn [fetches controllers]. split; [|reflexivity].
  rewrite map_list_set. cbn [fc_url fc_init].
  apply list_set_same. now rewrite nth_error_map, Hf.
Qed.

Lemma abort_requests (c : nat) (reason : value) (s : store) :
  requests (snd (AbortController_abort c reason s)) = requests s /\
  length (controllers (snd (AbortController_abort c reason s))) =
  length (controllers s).
Proof.
  unfold AbortController_abort, requests.
  destruct (nth_error (controllers s) c) as [[r|]|]; auto.
  cbn [snd fetches controllers]. split; [|apply length_list_set].
  rewrite map_map. apply map_ext. intros f.
  now destruct (abort_fetch_init c
                  match reason with VUndefined => AbortError | _ => reason end f)
    as [-> ->].
Qed.

(** Only [execute] makes requests. *)
Lemma requests_step (s : store) (a : action) :
  is_execute a = false -> requests (step s a) = requests s.
Proof.
  destruct a as [| |p|c reason|pid r|pid|pid]; simpl; intros Ha;
    try discriminate; try reflexivity.
  - apply abort_requests.
  - apply settle_requests.
  - apply settle_requests.
  - apply read_body_requests.
Qed.

Lemma requests_run (s : store) (acts : list action) :
  forallb (fun a => negb (is_execute a)) acts = true ->
  requests (run s acts) = requests s.
Proof.
  revert s. induction acts as [|a acts IH]; intros s; [reflexivity|].
  cbn [forallb]. intros Hall. apply andb_true_iff in Hall as [Ha Hall].
  rewrite run_cons, IH by exact Hall.
  apply requests_step. now apply negb_true_iff.
Qed.

End Evolution.

(* ===================================================================== *)
(** ** The instance is read-only *)
(* ===================================================================== *)

Section Instance.

Context `{Imports}.

(** As long as nothing but calls on the instance and transport events
    happens, [url] returns the text of the URL the instance was built
    with, and [options] the default options it was built with. *)
Lemma accessors_are_stable
    (endpoint : string + URL) (d : option value) (c : NanoQLClient)
    (s : store) (acts : list action) :
  constructor endpoint d = Return c ->
  this s = c ->
  url (run s acts) = (Return (URL_toString (_url c)), run s acts) /\
  options (run s acts) =
    (Return (match d with Some o => o | None => VUndefined end), run s acts) /\
  match endpoint with
  | inl text => URL_parse text = Some (_url c)
  | inr u => _url c = u
  end.
Proof.
  intros Hc Hs. unfold url, options. rewrite this_run, Hs.
  unfold constructor, new_URL in Hc.
  destruct endpoint as [text|u].
  - destruct (URL_parse text) as [u|]; [|discriminate].
    injection Hc as <-. auto.
  - injection Hc as <-. auto.
Qed.

Lemma occur_events (s : store) (evs : list event) :
  _url (this (happen s evs)) = current_url (_url (this s)) evs /\
  _options (this (happen s evs)) = _options (this s).
Proof.
  revert s. induction evs as [|e evs IH]; intros s; [split; reflexivity|].
  unfold happen, current_url in *. cbn [fold_left].
  destruct (IH (occur s e)) as [IHu IHo]. rewrite IHu, IHo.
  destruct e as [a|u]; cbn [occur this _url _options].
  - now rewrite this_step.
  - split; reflexivity.
Qed.

(** C6, as amended.  An instance built from a text owns its URL object:
    after any sequence of calls and transport events [url] returns the
    text of the URL the endpoint text was parsed into, the same at every
    call.  An instance built from a URL object keeps that object: [url]
    returns the text that object has at the moment of the call, which is
    the same at every call as long as its holder leaves it as it is, and
    follows every change the holder makes.  In both cases [options]
    returns the default options given to the constructor, or [undefined]
    when none were given, and neither accessor changes the store. *)
Theorem accessors_follow_the_url_object
    (endpoint : string + URL) (d : option value) (c : NanoQLClient) (s : store) :
  constructor endpoint d = Return c ->
  this s = c ->
  (forall text acts, endpoint = inl text ->
     URL_parse text = Some (_url c) /\
     url (run s acts) = (Return (URL_toString (_url c)), run s acts)) /\
  (forall u acts, endpoint = inr u ->
     url (run s acts) = (Return (URL_toString u), run s acts)) /\
  (forall u evs, endpoint = inr u ->
     url (happen s evs) =
       (Return (URL_toString (current_url u evs)), happen s evs)) /\
  (forall evs,
     options (happen s evs) =
       (Return (match d with Some o => o | None => VUndefined end), happen s evs)).
Proof.
  intros Hc Hs. unfold constructor, new_URL in Hc.
  repeat apply conj.
  - intros text acts ->. destruct (URL_parse text) as [u|]; [|discriminate].
    injection Hc as <-. unfold url. rewrite this_run, Hs. auto.
  - intros u acts ->. injection Hc as <-. unfold url. now rewrite this_run, Hs.
  - intros u evs ->. injection Hc as <-. unfold url.
    destruct (occur_events s evs) as [-> _]. now rewrite Hs.
  - intros evs. unfold options. destruct (occur_events s evs) as [_ ->].
    rewrite Hs. destruct endpoint as [text|u].
    + destruct (URL_parse text); [|discriminate]. now injection Hc as <-.
    + now injection Hc as <-.
Qed.

(** C7. [execute] leaves the receiver, endpoint and default options, as it
    was, whether it returns or throws.  When it returns it has made exactly
    one request, to the endpoint, and no later abort or transport event
    adds another; when it throws it has made none; and it returns whenever
    the document prints. *)
Theorem execute_frame (s : store) (p : ExecuteParams) :
  this (snd (execute p s)) = this s /\
  (forall r s', execute p s = (Return r, s') ->
     exists sent : string * value,
       requests s' = (requests s ++ [sent])%list /\
       fst sent = URL_toString (_url (this s)) /\
       forall acts, forallb (fun a => negb (is_execute a)) acts = true ->
                    requests (run s' acts) = (requests s ++ [sent])%list) /\
  (forall e s', execute p s = (Throw e, s') -> requests s' = requests s) /\
  (forall q, print (document p) = Return q ->
     exists r s', execute p s = (Return r, s')).
Proof.
  destruct (execute_cases s p) as [(q & Hq & Hex)|(e & He & Hex)];
    rewrite Hex; repeat apply conj; try reflexivity.
  - intros r s' E. injection E as <- <-.
    exists (URL_toString (_url (this s)), fc_init (dispatched s q p)).
    assert (requests
              {| this := this s;
                 controllers := (controllers s ++ [None])%list;
                 fetches := (fetches s ++ [dispatched s q p])%list |} =
            (requests s ++
               [(URL_toString (_url (this s)), fc_init (dispatched s q p))])%list)
      as Hreq.
    { unfold requests. cbn [fetches]. now rewrite map_app. }
    split; [exact Hreq|]. split; [reflexivity|].
    intros acts Hacts. now rewrite requests_run.
  - intros e s' E. discriminate E.
  - intros q' _. eauto.
  - intros r s' E. discriminate E.
  - intros e' s' E. now injection E as <- <-.
  - intros q Hq. congruence.
Qed.

End Instance.

(* ===================================================================== *)
(** ** Cancellation *)
(* ===================================================================== *)

Section Cancellation.

Context `{Imports}.

Lemma nth_error_app_old {A : Type} (l l' : list A) (i : nat) (x : A) :
  nth_error l i = Some x -> nth_error (l ++ l')%list i = Some x.
Proof.
  intros Hx. rewrite nth_error_app1; [exact Hx|].
  apply nth_error_Some. congruence.
Qed.

(** Controllers and requests are only ever added. *)
Lemma step_grows (s : store) (a : action) :
  length (controllers s) <= length (controllers (step s a)) /\
  length (fetches s) <= length (fetches (step s a)).
Proof.
  destruct a as [| |p|c reason|pid r|pid|pid]; simpl; auto.
  - destruct (execute_cases s p) as [(q & _ & ->)|(e & _ & ->)];
      cbn [snd controllers fetches]; rewrite ?length_app; simpl; lia.
  - unfold AbortController_abort.
    destruct (nth_error (controllers s) c) as [[r|]|]; cbn [snd controllers fetches];
      rewrite ?length_list_set, ?length_map; lia.
  - unfold settle. destruct (nth_error (fetches s) pid) as [f|]; [|lia].
    destruct (fc_state f); cbn [controllers fetches]; rewrite ?length_list_set; lia.
  - unfold settle. destruct (nth_error (fetches s) pid) as [f|]; [|lia].
    destruct (fc_state f); cbn [controllers fetches]; rewrite ?length_list_set; lia.
  - unfold read_body. destruct (nth_error (fetches s) pid) as [f|]; [|lia].
    destruct (fc_state f), (fc_body f); cbn [controllers fetches];
      rewrite ?length_list_set; lia.
Qed.

Lemma run_grows (s : store) (acts : list action) :
  length (controllers s) <= length (controllers (run s acts)) /\
  length (fetches s) <= length (fetches (run s acts)).
Proof.
  revert s. induction acts as [|a acts IH]; intros s; [simpl; lia|].
  rewrite run_cons. specialize (IH (step s a)).
  pose proof (step_grows s a). lia.
Qed.







Lemma controller_reason_app (c : nat) (s : store) (cs : list (option value))
    (fs : list fetch_call) :
  c < length (controllers s) ->
  controller_reason c {| this := this s;
                         controllers := (controllers s ++ cs)%list;
                         fetches := fs |} = controller_reason c s.
Proof.
  intros Hc. unfold controller_reason. cbn [controllers].
  now rewrite nth_error_app1.
Qed.

(** What [execute] returns is wired, and its request is pending. *)
Lemma wired_execute (s s' : store) (p : ExecuteParams) (r : ExecuteResult) :
  execute p s = (Return r, s') ->
  wired r s' /\ promise (response r) s' = Some Pending /\
  abort_controller r = length (controllers s) /\
  response r = length (fetches s) /\
  length (controllers s') = S (length (controllers s)) /\
  length (fetches s') = S (length (fetches s)).
Proof.
  intros Hex.
  destruct (execute_cases s p) as [(q & _ & E)|(e & _ & E)];
    rewrite E in Hex; [|discriminate].
  injection Hex as <- <-. cbn [response abort_controller controllers fetches].
  repeat apply conj; try reflexivity.
  - exists (dispatched s q p). cbn [response abort_controller controllers fetches].
    repeat apply conj.
    + apply nth_error_snoc.
    + apply init_signal_request.
    + rewrite length_app. simpl. lia.
    + intros _. unfold controller_reason. cbn [controllers].
      now rewrite nth_error_snoc.
    + intros resp Hresp. discriminate Hresp.
  - unfold promise. cbn [fetches]. now rewrite nth_error_snoc.
  - rewrite length_app. simpl. lia.
  - rewrite length_app. simpl. lia.
Qed.

Lemma wired_abort (r : ExecuteResult) (c : nat) (reason : value) (s : store) :
  wired r s -> wired r (snd (AbortController_abort c reason s)).
Proof.
  intros (f & Hf & Hsig & Hlt & Hpend & Hbody).
  unfold AbortController_abort.
  destruct (nth_error (controllers s) c) as [[old|]|] eqn:Hc;
    try (exists f; now repeat apply conj).
  set (why := match reason with VUndefined => AbortError | _ => reason end).
  exists (abort_fetch c why f). cbn [snd controllers fetches].
  repeat apply conj.
  - now rewrite nth_error_map, Hf.
  - now destruct (abort_fetch_init c why f) as [-> _].
  - now rewrite length_list_set.
  - intros Hp. unfold controller_reason. cbn [controllers].
    destruct (Nat.eq_dec c (abort_controller r)) as [->|Hne].
    + destruct (fc_state f) eqn:Hfs.
      * rewrite (abort_fetch_pending _ why f Hsig Hfs) in Hp. discriminate.
      * rewrite abort_fetch_settled in Hp by congruence. congruence.
      * rewrite abort_fetch_settled in Hp by congruence. congruence.
    + rewrite nth_error_list_set_neq by exact Hne.
      rewrite (abort_fetch_other c (abort_controller r) why f Hsig Hne) in Hp.
      apply (Hpend Hp).
  - intros resp Hresp Hb. unfold controller_reason. cbn [controllers].
    destruct (Nat.eq_dec c (abort_controller r)) as [->|Hne].
    + destruct (fc_state f) as [|resp0|e] eqn:Hfs.
      * rewrite (abort_fetch_pending _ why f Hsig Hfs) in Hresp. discriminate.
      * destruct (fc_body f) eqn:Hfb.
        -- rewrite (abort_fetch_readable _ why f resp0 Hsig Hfs Hfb) in Hb.
           discriminate.
        -- rewrite abort_fetch_body_kept in Hb by congruence. congruence.
        -- rewrite abort_fetch_body_kept in Hb by congruence. congruence.
      * rewrite abort_fetch_settled in Hresp by congruence. congruence.
    + rewrite nth_error_list_set_neq by exact Hne.
      rewrite (abort_fetch_other c (abort_controller r) why f Hsig Hne) in Hresp, Hb.
      apply (Hbody resp Hresp Hb).
Qed.

Lemma wired_settle (r : ExecuteResult) (pid : nat) (outcome : promise_state)
    (s : store) :
  wired r s -> wired r (settle pid outcome s).
Proof.
  intros (f & Hf & Hsig & Hlt & Hpend & Hbody).
  unfold settle.
  destruct (nth_error (fetches s) pid) as [g|] eqn:Hg;
    [|exists f; now repeat apply conj].
  destruct (fc_state g) eqn:Hgs; try (exists f; now repeat apply conj).
  destruct (Nat.eq_dec pid (response r)) as [->|Hne].
  - assert (g = f) as -> by congruence.
    exists {| fc_url := fc_url f; fc_init := fc_init f; fc_state := outcome;
              fc_body := BodyReadable |}.
    cbn [controllers fetches fc_init fc_state fc_body]. repeat apply conj; auto.
    apply nth_error_list_set_eq. apply nth_error_Some. congruence.
  - exists f. cbn [controllers fetches]. repeat apply conj; auto.
    now rewrite nth_error_list_set_neq.
Qed.

Lemma wired_read_body (r : ExecuteResult) (pid : nat) (s : store) :
  wired r s -> wired r (read_body pid s).
Proof.
  intros (f & Hf & Hsig & Hlt & Hpend & Hbody).
  unfold read_body.
  destruct (nth_error (fetches s) pid) as [g|] eqn:Hg;
    [|exists f; now repeat apply conj].
  destruct (fc_state g) eqn:Hgs; try (exists f; now repeat apply conj).
  destruct (fc_body g) eqn:Hgb; try (exists f; now repeat apply conj).
  destruct (Nat.eq_dec pid (response r)) as [->|Hne].
  - assert (g = f) as -> by congruence.
    eexists. cbn [controllers fetches].
    split; [apply nth_error_list_set_eq; apply nth_error_Some; congruence|].
    cbn [fc_init fc_state fc_body]. repeat apply conj; auto.
    + intros Hp. discriminate Hp.
    + intros resp _ Hb. discriminate Hb.
  - exists f. cbn [controllers fetches]. repeat apply conj; auto.
    now rewrite nth_error_list_set_neq.
Qed.

Lemma wired_step (r : ExecuteResult) (s : store) (a : action) :
  wired r s -> wired r (step s a).
Proof.
  intros Hw. destruct a as [| |p|c reason|pid resp|pid|pid]; simpl; auto.
  - destruct Hw as (f & Hf & Hsig & Hlt & Hpend & Hbody).
    destruct (execute_cases s p) as [(q & _ & ->)|(e & _ & ->)]; cbn [snd];
      exists f; cbn [controllers fetches]; repeat apply conj; auto.
    + now apply nth_error_app_old.
    + rewrite length_app. simpl. lia.
    + intros Hp. rewrite controller_reason_app by exact Hlt. auto.
    + intros resp Hresp Hb. rewrite controller_reason_app by exact Hlt. eauto.
    + rewrite length_app. simpl. lia.
    + intros Hp. rewrite controller_reason_app by exact Hlt. auto.
    + intros resp Hresp Hb. rewrite controller_reason_app by exact Hlt. eauto.
  - now apply wired_abort.
  - now apply wired_settle.
  - now apply wired_settle.
  - now apply wired_read_body.
Qed.

Lemma wired_run (r : ExecuteResult) (s : store) (acts : list action) :
  wired r s -> wired r (run s acts).
Proof.
  revert s. induction acts as [|a acts IH]; intros s Hw; [exact Hw|].
  rewrite run_cons. apply IH. now apply wired_step.
Qed.


(** Aborting one call leaves a call wired to another controller alone. *)
Lemma abort_other (r r' : ExecuteResult) (reason : value) (s : store) :
  wired r' s -> abort_controller r <> abort_controller r' ->
  promise (response r') (snd (abort r reason s)) = promise (response r') s /\
  controller_reason (abort_controller r') (snd (abort r reason s)) =
  controller_reason (abort_controller r') s.
Proof.
  intros (f & Hf & Hsig & Hlt & Hpend & _) Hne.
  unfold abort, AbortController_abort, promise, controller_reason.
  destruct (nth_error (controllers s) (abort_controller r)) as [[old|]|] eqn:Hc;
    auto.
  cbn [snd fetches controllers]. split.
  - rewrite nth_error_map, Hf. simpl.
    now rewrite (abort_fetch_other _ _ _ f Hsig Hne).
  - now rewrite nth_error_list_set_neq.
Qed.






(** C8. A call of [execute] that returns has made one request and created
    one controller, neither of which existed before, and returns one
    result, with a pending response and a signal that is not aborted.  A
    later call on the same instance gets another controller and another
    response; the instance is the same; and whatever happens afterwards,
    aborting either call changes neither the response nor the signal of
    the other. *)
Theorem calls_are_independent
    (s s1 s2 : store) (p1 p2 : ExecuteParams) (r1 r2 : ExecuteResult)
    (acts : list action) :
  execute p1 s = (Return r1, s1) ->
  execute p2 (run s1 acts) = (Return r2, s2) ->
  length (requests s1) = S (length (requests s)) /\
  length (controllers s1) = S (length (controllers s)) /\
  nth_error (controllers s) (abort_controller r1) = None /\
  nth_error (fetches s) (response r1) = None /\
  controller_reason (abort_controller r1) s1 = None /\
  promise (response r1) s1 = Some Pending /\
  abort_controller r1 <> abort_controller r2 /\
  response r1 <> response r2 /\
  this s2 = this s /\
  forall (later : list action) (reason : value),
    (promise (response r2) (snd (abort r1 reason (run s2 later))) =
       promise (response r2) (run s2 later) /\
     controller_reason (abort_controller r2) (snd (abort r1 reason (run s2 later))) =
       controller_reason (abort_controller r2) (run s2 later)) /\
    (promise (response r1) (snd (abort r2 reason (run s2 later))) =
       promise (response r1) (run s2 later) /\
     controller_reason (abort_controller r1) (snd (abort r2 reason (run s2 later))) =
       controller_reason (abort_controller r1) (run s2 later)).
Proof.
  intros Hex1 Hex2.
  destruct (wired_execute s s1 p1 r1 Hex1) as (Hw1 & Hp1 & Hc1 & Hr1 & Hlc1 & Hlf1).
  destruct (wired_execute _ s2 p2 r2 Hex2) as (Hw2 & Hp2 & Hc2 & Hr2 & Hlc2 & Hlf2).
  destruct (run_grows s1 acts) as [Hgc Hgf].
  assert (abort_controller r1 <> abort_controller r2) as Hne by lia.
  assert (wired r1 s2) as Hw12.
  { replace s2 with (step (run s1 acts) (CallExecute p2))
      by (simpl; now rewrite Hex2).
    apply wired_step. now apply wired_run. }
  repeat apply conj.
  - unfold requests. rewrite !length_map. exact Hlf1.
  - exact Hlc1.
  - apply nth_error_None. lia.
  - apply nth_error_None. lia.
  - destruct Hw1 as (f & Hf & _ & _ & Hpend). apply Hpend.
    unfold promise in Hp1. rewrite Hf in Hp1. simpl in Hp1. congruence.
  - exact Hp1.
  - exact Hne.
  - lia.
  - replace s2 with (step (run s1 acts) (CallExecute p2))
      by (simpl; now rewrite Hex2).
    rewrite this_step, this_run.
    replace s1 with (step s (CallExecute p1)) by (simpl; now rewrite Hex1).
    apply this_step.
  - intros later reason. split.
    + apply abort_other; [now apply wired_run | exact Hne].
    + apply abort_other; [now apply wired_run | congruence].
Qed.

End Cancellation.

(* ===================================================================== *)
(** ** Default headers that are not a plain object *)
(* ===================================================================== *)

Section HeaderForms.

Context `{Imports}.

Lemma wf_indexed (i : nat) (l : list value) : wf_object (indexed i l).
Proof.
  unfold wf_object, obj_keys. rewrite indexed_keys.
  apply Injective_map_NoDup; [|apply seq_NoDup].
  intros n m. apply string_of_nat_inj.
Qed.

Lemma string_of_nat_not_content_type (n : nat) :
  string_of_nat n <> "Content-Type".
Proof.
  unfold string_of_nat. intros E.
  pose proof (NilEmpty.usu (Nat.to_uint n)) as Hu.
  rewrite E in Hu. discriminate Hu.
Qed.

Lemma obj_get_indexed (k : string) (i : nat) (l : list value) (x : value) :
  obj_get k (indexed i l) = Some x -> In x l.
Proof.
  revert i. induction l as [|y l IH]; intros i; cbn [indexed obj_get];
    [discriminate|].
  destruct (String.eqb k (string_of_nat i)).
  - intros E. injection E as ->. now left.
  - intros E. right. now apply (IH (S i)).
Qed.

Lemma indexed_no_content_type (i : nat) (l : list value) :
  obj_get "Content-Type" (indexed i l) = None.
Proof.
  revert i. induction l as [|y l IH]; intros i; cbn [indexed obj_get];
    [reflexivity|].
  destruct (String.eqb_spec "Content-Type" (string_of_nat i)) as [E|_].
  - symmetry in E. now apply string_of_nat_not_content_type in E.
  - apply IH.
Qed.

Lemma request_headers_array (pairs : list value) :
  request_headers (VArray pairs) = (indexed 0 pairs ++ [content_type])%list.
Proof.
  unfold request_headers.
  rewrite spread_wf by apply wf_indexed.
  cbn [own_enumerable]. apply obj_set_fresh, indexed_no_content_type.
Qed.

(** C10. When the default headers are a [Headers] instance, the headers of
    the request are [Content-Type: application/json] alone.  When they are
    an array of name/value pairs, the headers of the request are the pairs
    themselves under their indices [0], [1], ... followed by
    [Content-Type]: no header name of the array maps to its value, and the
    only header with a string value is [Content-Type: application/json]. *)
Theorem default_headers_in_another_form
    (s : store) (p : ExecuteParams) (q : string) :
  print (document p) = Return q ->
  exists (r : ExecuteResult) (s' : store) (sent : fetch_call) (hs : object),
    execute p s = (Return r, s') /\
    nth_error (fetches s') (response r) = Some sent /\
    optional_get (fc_init sent) "headers" = VObject hs /\
    obj_get "Content-Type" hs = Some (VString "application/json") /\
    (forall entries,
       optional_get (_options (this s)) "headers" = VHeaders entries ->
       hs = [content_type] /\
       forall name, name <> "Content-Type" -> obj_get name hs = None) /\
    (forall pairs,
       optional_get (_options (this s)) "headers" = VArray pairs ->
       hs = (indexed 0 pairs ++ [content_type])%list /\
       (Forall (fun e => exists l, e = VArray l) pairs ->
        forall name v, obj_get name hs = Some (VString v) ->
                       name = "Content-Type" /\ v = "application/json")).
Proof.
  intros Hq.
  exists {| response := length (fetches s);
            abort_controller := length (controllers s) |}.
  eexists. exists (dispatched s q p).
  exists (request_headers (optional_get (_options (this s)) "headers")).
  split; [apply (execute_returns s p q Hq)|].
  split; [cbn [fetches response]; apply nth_error_snoc|].
  split.
  { unfold dispatched, optional_get at 1, request. cbn [fc_init].
    do 2 (rewrite obj_get_set_neq by discriminate). now rewrite obj_get_set_eq. }
  split; [apply obj_get_set_eq|].
  split.
  - intros entries ->. split; [reflexivity|].
    intros name Hname. cbn.
    destruct (String.eqb_spec name "Content-Type"); [contradiction | reflexivity].
  - intros pairs ->. rewrite request_headers_array. split; [reflexivity|].
    intros Harr name v. rewrite obj_get_app.
    destruct (obj_get name (indexed 0 pairs)) as [x|] eqn:Hx.
    + intros E. injection E as ->. apply obj_get_indexed in Hx.
      rewrite Forall_forall in Harr. destruct (Harr _ Hx) as [l Hl]. discriminate Hl.
    + cbn. destruct (String.eqb_spec name "Content-Type") as [->|]; [|discriminate].
      intros E. injection E as <-. auto.
Qed.

End HeaderForms.

(* ===================================================================== *)
(** ** The statements at concrete inputs *)
(* ===================================================================== *)

Section Runs.

#[local] Existing Instance Demo.imports.

Example hello_request_keys :
  map fst (requests (snd (execute Demo.hello Demo.start))) =
    ["https://example.com/graphql"] /\
  map (fun init => obj_keys (own_enumerable init))
      (map snd (requests (snd (execute Demo.hello Demo.start)))) =
    [["headers"; "cache"; "method"; "body"; "signal"]].
Proof. split; reflexivity. Qed.

Example hello_wire_text :
  wire_text "{ hello }" Demo.hello =
  "{" ++ QuoteJSONString "query" ++ ":" ++ QuoteJSONString "{ hello }" ++ "}".
Proof. reflexivity. Qed.

Example get_user_payload_keys :
  obj_keys (payload Demo.get_user_text Demo.get_user) =
    ["query"; "variables"; "operationName"] /\
  obj_keys (payload "{ hello }" Demo.unnamed) = ["query"].
Proof. split; reflexivity. Qed.

Example spread_of_pairs :
  spread (VArray [VString "a"; VString "b"]) =
    [("0", VString "a"); ("1", VString "b")] /\
  spread (VHeaders [("Authorization", "Bearer token")]) = [].
Proof. split; reflexivity. Qed.

Example abort_then_failure :
  promise 0 (run (snd (execute Demo.hello Demo.start))
                 [CallAbort 0 VUndefined; NetFail 0]) =
    Some (Rejected AbortError) /\
  promise 0 (run (snd (execute Demo.hello Demo.start))
                 [NetFail 0; CallAbort 0 VUndefined]) =
    Some (Rejected network_error).
Proof. split; reflexivity. Qed.

(** The GetUser call of the test suite: the three keys, in order. *)
Lemma execute_wire_payload_run :
  print (document Demo.get_user) = Return Demo.get_user_text /\
  exists r s' sent body,
    execute Demo.get_user Demo.start = (Return r, s') /\
    nth_error (fetches s') (response r) = Some sent /\
    optional_get (fc_init sent) "body" = JSON_stringify (VObject body) /\
    obj_get "variables" body = Some (VObject [("id", VString "123")]) /\
    obj_get "operationName" body = Some (VString "GetUser").
Proof.
  split; [reflexivity|].
  destruct (execute_wire_payload Demo.start Demo.get_user Demo.get_user_text eq_refl)
    as (r & s' & sent & body & Hex & Hsent & Hbody & _ & _ & _ & _ & _ & Hv & Ho & _).
  exists r, s', sent, body.
  repeat split; [exact Hex | exact Hsent | exact Hbody | |].
  - apply Hv. reflexivity.
  - apply Ho. reflexivity.
Defined.

Lemma bearer_options_wf :
  wf_object (own_enumerable bearer_options) /\
  wf_object (own_enumerable (optional_get bearer_options "headers")).
Proof.
  split; repeat constructor; simpl; intuition discriminate.
Defined.

(** The merge test of the test suite. *)
Lemma execute_request_options_run :
  exists r s' sent req hs,
    execute Demo.hello Demo.start = (Return r, s') /\
    nth_error (fetches s') (response r) = Some sent /\
    fc_init sent = VObject req /\
    obj_get "headers" req = Some (VObject hs) /\
    obj_get "cache" req = Some (VString "no-store") /\
    hs = [("Authorization", VString "Bearer token"); content_type].
Proof.
  destruct (execute_request_options Demo.start Demo.hello "{ hello }" eq_refl
              (proj1 bearer_options_wf) (proj2 bearer_options_wf))
    as (r & s' & sent & req & hs & Hex & Hsent & Hinit & Hreq & _ & Hb).
  exists r, s', sent, req, hs.
  destruct (Hb eq_refl) as [Hcache Hhs].
  repeat split; try assumption.
  now rewrite Hreq.
Defined.

Lemma execute_malformed_document_run :
  exists s', execute Demo.malformed Demo.start =
             (Throw (VError "Error" "Invalid AST Node"), s') /\
             fetches s' = [].
Proof.
  destruct (execute_malformed_document Demo.start Demo.malformed
              (VError "Error" "Invalid AST Node") eq_refl)
    as (s' & Hex & Hf & _).
  exists s'. split; [exact Hex | exact Hf].
Defined.



Lemma constructor_text_endpoint_run :
  constructor (inl "example.com/graphql") None = Throw (TypeError "Invalid URL") /\
  constructor (inl "https://example.com/graphql") None =
  Return (Demo.client VUndefined).
Proof.
  split.
  - apply (proj1 (constructor_text_endpoint "example.com/graphql" None)).
    reflexivity.
  - apply (proj1 (proj2 (constructor_text_endpoint (H := Demo.imports)
                           "https://example.com/graphql" None))
             "https://example.com/graphql").
    reflexivity.
Defined.

(** [url] on an instance built from a URL object, after a few calls and
    after the holder of the object has changed it. *)
Lemma accessors_follow_the_url_object_run :
  fst (url (happen (initial (Demo.client VUndefined))
                   [Call CallUrl; Call (CallExecute Demo.hello);
                    HolderSetsUrl "https://example.com/other"; Call CallUrl])) =
  Return "https://example.com/other".
Proof.
  refine (f_equal fst (proj1 (proj2 (proj2
    (accessors_follow_the_url_object (H := Demo.imports)
       (inr "https://example.com/graphql") None (Demo.client VUndefined)
       (initial (Demo.client VUndefined)) eq_refl eq_refl)))
    "https://example.com/graphql"
    [Call CallUrl; Call (CallExecute Demo.hello);
     HolderSetsUrl "https://example.com/other"; Call CallUrl] eq_refl)).
Defined.

(** Two calls of [url] on one instance that return different texts: the
    instance was built from a URL object, and the holder of that object
    changed its path between the calls. *)
Lemma url_differs_after_the_holder_changed_it :
  constructor (inr "https://example.com/graphql") None =
    Return (Demo.client VUndefined) /\
  fst (url (initial (Demo.client VUndefined))) =
    Return "https://example.com/graphql" /\
  fst (url (happen (initial (Demo.client VUndefined))
                   [Call CallUrl; HolderSetsUrl "https://example.com/other"])) =
    Return "https://example.com/other" /\
  fst (url (happen (initial (Demo.client VUndefined))
                   [Call CallUrl; HolderSetsUrl "https://example.com/other"])) <>
  fst (url (initial (Demo.client VUndefined))).
Proof.
  repeat split. intros E. discriminate E.
Qed.

Lemma execute_frame_run :
  this (snd (execute Demo.get_user Demo.start)) = Demo.client bearer_options /\
  requests (snd (execute Demo.malformed Demo.start)) = [].
Proof.
  split.
  - apply (proj1 (execute_frame Demo.start Demo.get_user)).
  - apply (proj1 (proj2 (proj2 (execute_frame Demo.start Demo.malformed)))
             (VError "Error" "Invalid AST Node")).
    reflexivity.
Defined.

Lemma calls_are_independent_run :
  promise 1 (snd (abort {| response := 0; abort_controller := 0 |} VUndefined
                    (snd (execute Demo.get_user
                            (snd (execute Demo.hello Demo.start)))))) =
  Some Pending.
Proof.
  pose proof (calls_are_independent Demo.start
                (snd (execute Demo.hello Demo.start))
                (snd (execute Demo.get_user (snd (execute Demo.hello Demo.start))))
                Demo.hello Demo.get_user
                {| response := 0; abort_controller := 0 |}
                {| response := 1; abort_controller := 1 |}
                [] eq_refl eq_refl) as Hind.
  destruct Hind as (_ & _ & _ & _ & _ & _ & _ & _ & _ & Hlater).
  destruct (Hlater [] VUndefined) as [[Hp _] _].
  cbn [response run fold_left] in Hp. rewrite Hp. reflexivity.
Defined.

Lemma falsy_inputs_are_omitted_run :
  execute Demo.unnamed Demo.start = execute Demo.hello Demo.start.
Proof.
  rewrite (proj1 (falsy_inputs_are_omitted Demo.start Demo.unnamed) eq_refl).
  apply (proj1 (proj2 (falsy_inputs_are_omitted Demo.start
                         (omit_operationName Demo.unnamed))) eq_refl).
Defined.

Lemma default_headers_in_another_form_run :
  exists r s' sent,
    execute Demo.hello (initial (Demo.client Demo.headers_pairs)) = (Return r, s') /\
    nth_error (fetches s') (response r) = Some sent /\
    optional_get (fc_init sent) "headers" =
    VObject [("0", VArray [VString "Authorization"; VString "Bearer token"]);
             content_type].
Proof.
  destruct (default_headers_in_another_form
              (initial (Demo.client Demo.headers_pairs)) Demo.hello "{ hello }" eq_refl)
    as (r & s' & sent & hs & Hex & Hsent & Hh & _ & _ & Hpairs).
  exists r, s', sent. repeat split; try assumption.
  rewrite Hh. f_equal.
  apply (proj1 (Hpairs [VArray [VString "Authorization"; VString "Bearer token"]]
                  eq_refl)).
Defined.

End Runs.

(* ===================================================================== *)
(** ** Sequences of calls *)
(* ===================================================================== *)

Section Sequences.

Context `{Imports}.

Lemma request_well_formed (s : store) (q : string) (p : ExecuteParams) :
  well_formed_request (this s) (fc_url (dispatched s q p))
                      (fc_init (dispatched s q p)).
Proof.
  split; [reflexivity|].
  eexists. exists (request_headers (optional_get (_options (this s)) "headers")).
  exists (wire_text q p).
  split; [reflexivity|]. unfold request.
  repeat apply conj.
  - do 3 (rewrite obj_get_set_neq by discriminate). apply obj_get_set_eq.
  - do 2 (rewrite obj_get_set_neq by discriminate). apply obj_get_set_eq.
  - apply obj_get_set_eq.
  - rewrite obj_get_set_neq by discriminate.
    rewrite obj_get_set_eq. now rewrite payload_wire_text.
Qed.

(** What a step adds to the requests. *)
Lemma requests_step_cases (s : store) (a : action) :
  (requests (step s a) = requests s /\
   prints a = false /\
   length (controllers s) <= length (controllers (step s a))) \/
  (exists p q,
     a = CallExecute p /\ print (document p) = Return q /\
     requests (step s a) =
       (requests s ++ [(fc_url (dispatched s q p), fc_init (dispatched s q p))])%list /\
     length (controllers (step s a)) = S (length (controllers s))).
Proof.
  destruct (is_execute a) eqn:Ha.
  - destruct a as [| |p| | | |]; try discriminate. cbn [step prints].
    destruct (execute_cases s p) as [(q & Hq & ->)|(e & He & ->)]; cbn [snd].
    + right. exists p, q. repeat apply conj; auto.
      * unfold requests. cbn [fetches]. now rewrite map_app.
      * cbn [controllers]. rewrite length_app. simpl. lia.
    + left. rewrite He. repeat apply conj; auto.
      cbn [controllers]. rewrite length_app. simpl. lia.
  - left. repeat apply conj.
    + now apply requests_step.
    + destruct a; try reflexivity; discriminate.
    + apply step_grows.
Qed.

Lemma well_formed_run (c : NanoQLClient) (s : store) (acts : list action) :
  this s = c ->
  Forall (fun r => well_formed_request c (fst r) (snd r)) (requests s) ->
  Forall (fun r => well_formed_request c (fst r) (snd r)) (requests (run s acts)).
Proof.
  revert s. induction acts as [|a acts IH]; intros s Hc Hall; [exact Hall|].
  rewrite run_cons. apply IH; [now rewrite this_step|].
  destruct (requests_step_cases s a) as [(-> & _)|(p & q & _ & _ & -> & _)];
    [exact Hall|].
  apply Forall_app. split; [exact Hall|].
  constructor; [|constructor]. cbn [fst snd]. rewrite <- Hc.
  apply request_well_formed.
Qed.

Lemma signals_in_order_step (s : store) (a : action) :
  signals_in_order s -> signals_in_order (step s a).
Proof.
  intros [Hbound Horder].
  destruct (requests_step_cases s a) as [(Hr & _ & Hc)|(p & q & _ & _ & Hr & Hc)];
    rewrite ?Hr; split.
  - intros i u init Hi. rewrite Hr in Hi.
    destruct (Hbound i u init Hi) as (a0 & Ha0 & Hlt). exists a0. split; [exact Ha0 | lia].
  - intros i j u v x y a0 b0 Hij Hi Hj. rewrite Hr in Hi, Hj. eauto.
  - intros i u init Hi. rewrite Hr in Hi.
    destruct (Nat.lt_ge_cases i (length (requests s))) as [Hlt|Hge].
    + rewrite nth_error_app1 in Hi by exact Hlt.
      destruct (Hbound i u init Hi) as (a0 & Ha0 & Hlt0).
      exists a0. split; [exact Ha0 | lia].
    + rewrite nth_error_app2 in Hi by exact Hge.
      destruct (i - length (requests s)) as [|k]; [|destruct k; discriminate].
      injection Hi as <- <-. exists (length (controllers s)).
      split; [apply init_signal_request | lia].
  - intros i j u v x y a0 b0 Hij Hi Hj Ha0 Hb0. rewrite Hr in Hi, Hj.
    assert (j < length (requests s ++ [(fc_url (dispatched s q p),
                                         fc_init (dispatched s q p))])%list) as Hjl
      by (apply nth_error_Some; congruence).
    rewrite length_app in Hjl. simpl in Hjl.
    rewrite nth_error_app1 in Hi by lia.
    destruct (Nat.lt_ge_cases j (length (requests s))) as [Hlt|Hge].
    + rewrite nth_error_app1 in Hj by exact Hlt. eauto.
    + rewrite nth_error_app2 in Hj by exact Hge.
      replace (j - length (requests s)) with 0 in Hj by lia.
      injection Hj as <- <-.
      unfold dispatched in Hb0. cbn [fc_init] in Hb0.
      rewrite init_signal_request in Hb0. injection Hb0 as <-.
      destruct (Hbound i u x Hi) as (a1 & Ha1 & Hlt1). congruence.
Qed.

Lemma signals_in_order_run (s : store) (acts : list action) :
  signals_in_order s -> signals_in_order (run s acts).
Proof.
  revert s. induction acts as [|a acts IH]; intros s Hs; [exact Hs|].
  rewrite run_cons. apply IH. now apply signals_in_order_step.
Qed.

Lemma signals_in_order_initial (c : NanoQLClient) : signals_in_order (initial c).
Proof.
  split.
  - intros [|i] u init Hi; discriminate Hi.
  - intros [|i] j u v x y a b _ Hi; discriminate Hi.
Qed.

End Sequences.

(* ===================================================================== *)
(** ** What an instance sends over its lifetime *)
(* ===================================================================== *)

Section Lifetime.

Context `{Imports}.

(** X1. Whatever the default options hold and whatever calls and transport
    events have happened since construction, every request the instance
    has made went to its endpoint, as a POST, with the header
    [Content-Type: application/json], a text as body and the signal of a
    controller that exists. *)
Theorem every_request_is_well_formed
    (c : NanoQLClient) (acts : list action) (u : string) (init : value) :
  In (u, init) (requests (run (initial c) acts)) ->
  well_formed_request c u init /\
  exists a, init_signal init = Some a /\
            a < length (controllers (run (initial c) acts)).
Proof.
  intros Hin. split.
  - pose proof (well_formed_run c (initial c) acts eq_refl (Forall_nil _)) as Hall.
    rewrite Forall_forall in Hall. apply (Hall (u, init) Hin).
  - apply In_nth_error in Hin as [i Hi].
    destruct (signals_in_order_run (initial c) acts (signals_in_order_initial c))
      as [Hbound _].
    apply (Hbound i u init Hi).
Qed.

Lemma returned_step (s : store) (a : action) :
  length (controllers (step s a)) =
    length (controllers s) + (if is_execute a then 1 else 0) /\
  requests (step s a) =
    (requests s ++ skipn (length (requests s)) (requests (step s a)))%list /\
  length (requests (step s a)) = length (requests s) + returned s [a].
Proof.
  cbn [returned]. rewrite Nat.add_0_r.
  destruct a as [| |p|cid reason|pid resp|pid|pid]; cbn [is_execute step].
  - cbn [url snd]. rewrite skipn_all, app_nil_r. repeat split; lia.
  - cbn [options snd]. rewrite skipn_all, app_nil_r. repeat split; lia.
  - destruct (execute_cases s p) as [(q & _ & ->)|(e & _ & ->)];
      cbn [fst snd controllers]; unfold requests; cbn [fetches];
      rewrite ?map_app, ?length_app, ?skipn_app, ?skipn_all, ?Nat.sub_diag;
      cbn [skipn app length map]; rewrite ?app_nil_r; repeat split; lia.
  - destruct (abort_requests cid reason s) as [-> ->].
    rewrite skipn_all, app_nil_r. repeat split; lia.
  - destruct (settle_requests pid (Fulfilled resp) s) as [-> ->].
    rewrite skipn_all, app_nil_r. repeat split; lia.
  - destruct (settle_requests pid (Rejected network_error) s) as [-> ->].
    rewrite skipn_all, app_nil_r. repeat split; lia.
  - destruct (read_body_requests pid s) as [-> ->].
    rewrite skipn_all, app_nil_r. repeat split; lia.
Qed.

(** X2. Over any sequence of calls and transport events, one controller is
    created per call of [execute], also one that throws, and one request
    is made per call of [execute] that returns; nothing else creates
    either, and the requests made before stay as they are, in their
    places. *)
Theorem calls_are_counted (s : store) (acts : list action) :
  length (controllers (run s acts)) =
    length (controllers s) + length (filter is_execute acts) /\
  length (requests (run s acts)) = length (requests s) + returned s acts /\
  firstn (length (requests s)) (requests (run s acts)) = requests s.
Proof.
  revert s. induction acts as [|a acts IH]; intros s.
  - cbn [run fold_left filter length returned]. rewrite firstn_all.
    repeat split; lia.
  - rewrite run_cons. destruct (IH (step s a)) as (IHc & IHr & IHp).
    destruct (returned_step s a) as (Hc & Hp & Hr).
    cbn [returned] in Hr. rewrite Nat.add_0_r in Hr.
    repeat apply conj.
    + rewrite IHc, Hc. cbn [filter]. destruct (is_execute a); cbn [length]; lia.
    + rewrite IHr, Hr. cbn [returned]. lia.
    + transitivity (firstn (length (requests s))
                      (firstn (length (requests (step s a)))
                              (requests (run (step s a) acts)))).
      * rewrite firstn_firstn. f_equal. lia.
      * rewrite IHp, Hp. rewrite firstn_app, firstn_all, Nat.sub_diag.
        cbn [firstn]. apply app_nil_r.
Qed.

Lemma abort_changes_own (cid i : nat) (reason : value) (s : store) :
  promise i (snd (AbortController_abort cid reason s)) <> promise i s ->
  exists u init, nth_error (requests s) i = Some (u, init) /\
                 init_signal init = Some cid.
Proof.
  unfold AbortController_abort, promise, requests.
  destruct (nth_error (controllers s) cid) as [[old|]|]; cbn [snd];
    try congruence.
  cbn [fetches]. rewrite !nth_error_map.
  destruct (nth_error (fetches s) i) as [f|]; [|cbn [option_map]; congruence].
  cbn [option_map]. intros Hch.
  exists (fc_url f), (fc_init f). split; [reflexivity|].
  unfold abort_fetch in Hch.
  destruct (init_signal (fc_init f)) as [c'|]; [|congruence].
  destruct (Nat.eqb_spec cid c') as [->|]; [reflexivity | congruence].
Qed.

Lemma abort_keeps_other (cid i b : nat) (reason : value) (s : store) (u : string)
    (init : value) :
  nth_error (requests s) i = Some (u, init) ->
  init_signal init = Some b -> cid <> b ->
  promise i (snd (AbortController_abort cid reason s)) = promise i s.
Proof.
  unfold AbortController_abort, promise, requests. intros Hi Hb Hne.
  rewrite nth_error_map in Hi.
  destruct (nth_error (controllers s) cid) as [[old|]|]; try reflexivity.
  cbn [snd fetches]. rewrite nth_error_map.
  destruct (nth_error (fetches s) i) as [f|]; [|discriminate Hi].
  cbn [option_map] in *. injection Hi as _ <-.
  now rewrite (abort_fetch_other cid b _ f Hb Hne).
Qed.

(** X3. In the life of an instance no two requests are made with the same
    signal, so one call of [abort], on whatever controller and at whatever
    moment, changes the response of at most one request. *)
Theorem signals_are_never_shared
    (c : NanoQLClient) (acts : list action) (i j : nat) :
  i <> j ->
  (forall u v x y,
     nth_error (requests (run (initial c) acts)) i = Some (u, x) ->
     nth_error (requests (run (initial c) acts)) j = Some (v, y) ->
     init_signal x <> init_signal y) /\
  (forall cid reason,
     promise i (snd (AbortController_abort cid reason (run (initial c) acts))) <>
       promise i (run (initial c) acts) ->
     promise j (snd (AbortController_abort cid reason (run (initial c) acts))) =
       promise j (run (initial c) acts)).
Proof.
  intros Hij.
  destruct (signals_in_order_run (initial c) acts (signals_in_order_initial c))
    as [Hbound Horder].
  assert (forall u v x y,
            nth_error (requests (run (initial c) acts)) i = Some (u, x) ->
            nth_error (requests (run (initial c) acts)) j = Some (v, y) ->
            init_signal x <> init_signal y) as Huniq.
  { intros u v x y Hi Hj.
    destruct (Hbound i u x Hi) as (a & Ha & _).
    destruct (Hbound j v y Hj) as (b & Hb & _).
    rewrite Ha, Hb. intros E. injection E as E.
    destruct (Nat.lt_gt_cases i j) as [Hne _]. destruct (Hne Hij) as [Hlt|Hlt].
    - pose proof (Horder i j u v x y a b Hlt Hi Hj Ha Hb). lia.
    - pose proof (Horder j i v u y x b a Hlt Hj Hi Hb Ha). lia. }
  split; [exact Huniq|].
  intros cid reason Hch.
  destruct (abort_changes_own cid i reason _ Hch) as (u & x & Hi & Hx).
  destruct (nth_error (requests (run (initial c) acts)) j) as [[v y]|] eqn:Hj.
  - destruct (Hbound j v y Hj) as (b & Hb & _).
    apply (abort_keeps_other cid j b reason _ v y Hj Hb).
    intros ->. apply (Huniq u v x y Hi eq_refl). congruence.
  - unfold promise, AbortController_abort, requests in *.
    destruct (nth_error (controllers (run (initial c) acts)) cid) as [[old|]|];
      try reflexivity.
    cbn [snd fetches]. rewrite nth_error_map in *.
    destruct (nth_error (fetches (run (initial c) acts)) j); [discriminate|reflexivity].
Qed.

Lemma aborted_stays (cid : nat) (x : value) (s : store) (a : action) :
  controller_reason cid s = Some x -> controller_reason cid (step s a) = Some x.
Proof.
  unfold controller_reason. intros Hx.
  destruct (nth_error (controllers s) cid) as [r|] eqn:Hc; [|discriminate].
  subst r.
  destruct a as [| |p|c' reason|pid resp|pid|pid]; cbn [step url options snd];
    rewrite ?Hc; try reflexivity.
  - destruct (execute_cases s p) as [(q & _ & ->)|(e & _ & ->)];
      cbn [snd controllers]; now rewrite (nth_error_app_old _ _ _ _ Hc).
  - unfold AbortController_abort.
    destruct (nth_error (controllers s) c') as [[old|]|] eqn:Hc';
      cbn [snd controllers]; rewrite ?Hc; try reflexivity.
    destruct (Nat.eq_dec c' cid) as [->|Hne]; [congruence|].
    now rewrite nth_error_list_set_neq, Hc.
  - destruct (settle_requests pid (Fulfilled resp) s) as [_ ->]. now rewrite Hc.
  - destruct (settle_requests pid (Rejected network_error) s) as [_ ->].
    now rewrite Hc.
  - destruct (read_body_requests pid s) as [_ ->]. now rewrite Hc.
Qed.

Lemma aborted_stays_run (cid : nat) (x : value) (s : store) (acts : list action) :
  controller_reason cid s = Some x -> controller_reason cid (run s acts) = Some x.
Proof.
  revert s. induction acts as [|a acts IH]; intros s Hx; [exact Hx|].
  rewrite run_cons. apply IH. now apply aborted_stays.
Qed.

(** X4. Once the [abort] of a call has been invoked, invoking it again, at
    any later moment and with any reason, changes nothing: the signal
    keeps the reason of the first abort. *)
Theorem abort_again_does_nothing
    (r : ExecuteResult) (reason1 reason2 : value) (s : store)
    (later : list action) :
  abort_controller r < length (controllers s) ->
  abort r reason2 (run (snd (abort r reason1 s)) later) =
    (Return tt, run (snd (abort r reason1 s)) later) /\
  controller_reason (abort_controller r) (run (snd (abort r reason1 s)) later) =
    controller_reason (abort_controller r) (snd (abort r reason1 s)) /\
  controller_reason (abort_controller r) (snd (abort r reason1 s)) <> None.
Proof.
  intros Hlt.
  assert (exists x, controller_reason (abort_controller r) (snd (abort r reason1 s))
                    = Some x) as [x Hx].
  { unfold abort, AbortController_abort, controller_reason.
    destruct (nth_error (controllers s) (abort_controller r)) as [[old|]|] eqn:Hc.
    - cbn [snd]. rewrite Hc. eauto.
    - cbn [snd controllers]. rewrite nth_error_list_set_eq by exact Hlt. eauto.
    - apply nth_error_None in Hc. lia. }
  pose proof (aborted_stays_run _ x _ later Hx) as Hlater.
  repeat apply conj.
  - unfold abort at 1. unfold AbortController_abort.
    unfold controller_reason in Hlater.
    destruct (nth_error (controllers (run (snd (abort r reason1 s)) later))
                        (abort_controller r)) as [[old|]|]; try reflexivity;
      discriminate.
  - congruence.
  - congruence.
Qed.

End Lifetime.

(* ===================================================================== *)
(** ** One call, at its edges *)
(* ===================================================================== *)

Section Edges.

Context `{Imports}.

Lemma obj_keys_set_value (k : string) (v v' : value) (o : object) :
  obj_keys (obj_set k v o) = obj_keys (obj_set k v' o).
Proof.
  unfold obj_keys, obj_keys_of.
  induction o as [|[k1 v1] o IH]; cbn [obj_set map fst]; [reflexivity|].
  destruct (String.eqb k k1); cbn [map fst]; [reflexivity | now rewrite IH].
Qed.

Lemma obj_keys_set (k : string) (v : value) (o : object) :
  obj_keys (obj_set k v o) =
  if obj_has k o then obj_keys o else (obj_keys o ++ [k])%list.
Proof.
  unfold obj_keys, obj_keys_of, obj_has.
  induction o as [|[k1 v1] o IH]; cbn [obj_set obj_get map fst app]; [reflexivity|].
  destruct (String.eqb k k1); cbn [map fst]; [reflexivity|].
  rewrite IH. now destruct (obj_get k o).
Qed.

Lemma wf_obj_set (k : string) (v : value) (o : object) :
  wf_object o -> wf_object (obj_set k v o).
Proof.
  unfold wf_object. rewrite obj_keys_set. unfold obj_has.
  destruct (obj_get k o) eqn:Hk; [auto|].
  intros Hwf. apply NoDup_app; [exact Hwf | repeat constructor; intros [] |].
  intros x Hx [<-|[]]. now apply obj_get_None in Hk.
Qed.

(** X5. What [execute] sends depends on the instance and the arguments
    only: in two stores with the same instance, whatever happened before
    in each, the same call makes a request to the same URL whose options
    have the same keys and, under every key but [signal], the same
    value. *)
Theorem execute_is_stateless
    (s1 s2 : store) (p : ExecuteParams) (q : string) :
  this s1 = this s2 ->
  print (document p) = Return q ->
  exists r1 s1' f1 r2 s2' f2,
    execute p s1 = (Return r1, s1') /\
    nth_error (fetches s1') (response r1) = Some f1 /\
    execute p s2 = (Return r2, s2') /\
    nth_error (fetches s2') (response r2) = Some f2 /\
    fc_url f1 = fc_url f2 /\
    obj_keys (own_enumerable (fc_init f1)) = obj_keys (own_enumerable (fc_init f2)) /\
    forall k, k <> "signal" ->
              optional_get (fc_init f1) k = optional_get (fc_init f2) k.
Proof.
  intros Hthis Hq.
  do 2 eexists. exists (dispatched s1 q p). do 2 eexists. exists (dispatched s2 q p).
  split; [apply (execute_returns s1 p q Hq)|].
  split; [cbn [fetches response]; apply nth_error_snoc|].
  split; [apply (execute_returns s2 p q Hq)|].
  split; [cbn [fetches response]; apply nth_error_snoc|].
  unfold dispatched. cbn [fc_url fc_init own_enumerable]. rewrite Hthis.
  repeat apply conj.
  - reflexivity.
  - unfold request. apply obj_keys_set_value.
  - intros k Hk. unfold optional_get, request.
    now rewrite !(obj_get_set_neq "signal" k) by congruence.
Qed.

(** X6. Without default options ([undefined] or [null]) the options of the
    request are exactly [method], [headers], [body] and [signal], in that
    order, and its headers are [Content-Type: application/json] alone. *)
Theorem execute_without_default_options
    (s : store) (p : ExecuteParams) (q : string) :
  print (document p) = Return q ->
  _options (this s) = VUndefined \/ _options (this s) = VNull ->
  exists r s' sent,
    execute p s = (Return r, s') /\
    nth_error (fetches s') (response r) = Some sent /\
    fc_init sent =
      VObject [("method", VString "POST");
               ("headers", VObject [content_type]);
               ("body", VString (wire_text q p));
               ("signal", VSignal (abort_controller r))].
Proof.
  intros Hq Hopts.
  do 2 eexists. exists (dispatched s q p).
  split; [apply (execute_returns s p q Hq)|].
  split; [cbn [fetches response]; apply nth_error_snoc|].
  unfold dispatched. cbn [fc_init abort_controller].
  destruct Hopts as [-> | ->]; unfold request; rewrite payload_wire_text;
    reflexivity.
Qed.

(** X7. A [variables] object is always sent, even when it is empty: with
    [variables: {}] and no operation name the body on the wire is the
    object with [query] and an empty [variables] object. *)
Theorem empty_variables_are_sent
    (s : store) (p : ExecuteParams) (q : string) (props : list (string * value)) :
  print (document p) = Return q ->
  variables p = VObject props ->
  exists r s' sent body,
    execute p s = (Return r, s') /\
    nth_error (fetches s') (response r) = Some sent /\
    optional_get (fc_init sent) "body" = JSON_stringify (VObject body) /\
    obj_get "variables" body = Some (VObject props) /\
    (props = [] -> ToBoolean (operationName p) = false ->
     optional_get (fc_init sent) "body" =
       VString ("{" ++ QuoteJSONString "query" ++ ":" ++ QuoteJSONString q ++ ","
                    ++ QuoteJSONString "variables" ++ ":{}}")).
Proof.
  intros Hq Hv.
  do 2 eexists. exists (dispatched s q p), (payload q p).
  split; [apply (execute_returns s p q Hq)|].
  split; [cbn [fetches response]; apply nth_error_snoc|].
  assert (optional_get (fc_init (dispatched s q p)) "body" =
          JSON_stringify (VObject (payload q p))) as Hbody.
  { unfold dispatched, optional_get, request. cbn [fc_init].
    rewrite obj_get_set_neq by discriminate. now rewrite obj_get_set_eq. }
  split; [exact Hbody|]. split.
  - rewrite payload_members, Hv. cbn [ToBoolean].
    destruct (ToBoolean (operationName p)); reflexivity.
  - intros -> Ho. rewrite Hbody, payload_wire_text. unfold wire_text, json_text.
    rewrite Hv, Ho. cbn [ToBoolean SerializeJSONProperty join].
    reflexivity.
Qed.

End Edges.

(* ===================================================================== *)
(** ** Responses, construction and the merged headers *)
(* ===================================================================== *)

Section Handles.

Context `{Imports}.







(** X9. Construction fails in one way only: on a text that does not parse,
    with the [TypeError] of [new URL].  Given a URL it always succeeds and
    keeps that URL as it is, and the default options, whatever they are,
    are stored as given and never make it fail. *)
Theorem constructor_fails_only_on_text
    (endpoint : string + URL) (d : option value) :
  (forall e, constructor endpoint d = Throw e ->
     exists text, endpoint = inl text /\ URL_parse text = None /\
                  e = TypeError "Invalid URL") /\
  (forall u, endpoint = inr u ->
     constructor endpoint d =
     Return {| _url := u;
               _options := match d with Some o => o | None => VUndefined end |}) /\
  (forall c, constructor endpoint d = Return c ->
     _options c = match d with Some o => o | None => VUndefined end).
Proof.
  unfold constructor, new_URL. repeat apply conj.
  - intros e He. destruct endpoint as [text|u]; [|discriminate].
    exists text. destruct (URL_parse text); [discriminate|].
    injection He as <-. auto.
  - intros u ->. reflexivity.
  - intros c Hc. destruct endpoint as [text|u].
    + destruct (URL_parse text); [|discriminate]. now injection Hc as <-.
    + now injection Hc as <-.
Qed.

(** X10. The headers of a request, for default headers that are a plain
    object (or absent): they have one entry per name; when the defaults
    have no [Content-Type] entry they are the defaults, in their order,
    followed by [Content-Type: application/json]; when they have one, the
    names and their order are those of the defaults, the value under
    [Content-Type] is [application/json] and every other entry keeps its
    value.  Names are compared exactly: a default [content-type] in lower
    case is kept, beside the fixed [Content-Type]. *)
Theorem merged_headers_shape (s : store) (p : ExecuteParams) (q : string) :
  print (document p) = Return q ->
  wf_object (own_enumerable (optional_get (_options (this s)) "headers")) ->
  exists r s' sent hs,
    execute p s = (Return r, s') /\
    nth_error (fetches s') (response r) = Some sent /\
    optional_get (fc_init sent) "headers" = VObject hs /\
    wf_object hs /\
    (obj_has "Content-Type"
             (own_enumerable (optional_get (_options (this s)) "headers")) = false ->
     hs = (own_enumerable (optional_get (_options (this s)) "headers")
           ++ [content_type])%list) /\
    (obj_has "Content-Type"
             (own_enumerable (optional_get (_options (this s)) "headers")) = true ->
     obj_keys hs =
       obj_keys (own_enumerable (optional_get (_options (this s)) "headers"))) /\
    (forall h,
       obj_get h hs =
       if String.eqb h "Content-Type" then Some (VString "application/json")
       else obj_get h (own_enumerable (optional_get (_options (this s)) "headers"))) /\
    (forall v,
       obj_get "content-type"
               (own_enumerable (optional_get (_options (this s)) "headers")) = Some v ->
       obj_get "content-type" hs = Some v /\
       obj_get "Content-Type" hs = Some (VString "application/json")).
Proof.
  intros Hq Hwf.
  set (dh := optional_get (_options (this s)) "headers") in *.
  do 2 eexists. exists (dispatched s q p), (request_headers dh).
  split; [apply (execute_returns s p q Hq)|].
  split; [cbn [fetches response]; apply nth_error_snoc|].
  split.
  { unfold dispatched, optional_get at 1, request. cbn [fc_init].
    do 2 (rewrite obj_get_set_neq by discriminate). now rewrite obj_get_set_eq. }
  unfold request_headers. rewrite (spread_wf dh Hwf).
  repeat apply conj.
  - now apply wf_obj_set.
  - unfold obj_has. intros Hno.
    destruct (obj_get "Content-Type" (own_enumerable dh)) eqn:Hg; [discriminate|].
    now apply obj_set_fresh.
  - intros Hyes. rewrite obj_keys_set. now rewrite Hyes.
  - intros h. destruct (String.eqb_spec h "Content-Type") as [->|Hh].
    + apply obj_get_set_eq.
    + apply obj_get_set_neq. congruence.
  - intros v Hv. split.
    + rewrite obj_get_set_neq by discriminate. exact Hv.
    + apply obj_get_set_eq.
Qed.

End Handles.

(* ===================================================================== *)
(** ** The statements on sequences and edges at concrete inputs *)
(* ===================================================================== *)

Section MoreRuns.

#[local] Existing Instance Demo.imports.

Example busy_counts :
  length (controllers (run Demo.start Demo.busy)) = 3 /\
  length (requests (run Demo.start Demo.busy)) = 2 /\
  map (fun r => init_signal (snd r)) (requests (run Demo.start Demo.busy)) =
    [Some 0; Some 2].
Proof. repeat split. Qed.

Lemma every_request_is_well_formed_run :
  exists init,
    nth_error (requests (run Demo.start Demo.busy)) 1 =
      Some ("https://example.com/graphql", init) /\
    well_formed_request (Demo.client bearer_options)
                        "https://example.com/graphql" init.
Proof.
  eexists. split; [reflexivity|].
  apply (every_request_is_well_formed (Demo.client bearer_options) Demo.busy).
  right. left. reflexivity.
Defined.

Lemma signals_are_never_shared_run :
  promise 1 (snd (AbortController_abort 0 VUndefined
                    (run Demo.start [CallExecute Demo.hello;
                                     CallExecute Demo.get_user]))) =
  promise 1 (run Demo.start [CallExecute Demo.hello; CallExecute Demo.get_user]).
Proof.
  refine (proj2 (signals_are_never_shared (Demo.client bearer_options)
                   [CallExecute Demo.hello; CallExecute Demo.get_user] 0 1 _)
                0 VUndefined _).
  - discriminate.
  - discriminate.
Defined.

Lemma abort_again_does_nothing_run :
  controller_reason 0
    (snd (abort {| response := 0; abort_controller := 0 |} (VString "again")
            (run (snd (abort {| response := 0; abort_controller := 0 |} VUndefined
                         (snd (execute Demo.hello Demo.start))))
                 [CallExecute Demo.get_user]))) =
  Some AbortError.
Proof.
  pose proof (abort_again_does_nothing
                {| response := 0; abort_controller := 0 |} VUndefined (VString "again")
                (snd (execute Demo.hello Demo.start))
                [CallExecute Demo.get_user]) as Hagain.
  destruct Hagain as (Hnoop & _ & _).
  - cbn. lia.
  - rewrite Hnoop. reflexivity.
Defined.

Lemma execute_is_stateless_run :
  exists r1 s1' f1 r2 s2' f2,
    execute Demo.get_user Demo.start = (Return r1, s1') /\
    nth_error (fetches s1') (response r1) = Some f1 /\
    execute Demo.get_user (run Demo.start Demo.busy) = (Return r2, s2') /\
    nth_error (fetches s2') (response r2) = Some f2 /\
    optional_get (fc_init f1) "body" = optional_get (fc_init f2) "body".
Proof.
  destruct (execute_is_stateless Demo.start (run Demo.start Demo.busy) Demo.get_user
              Demo.get_user_text eq_refl eq_refl)
    as (r1 & s1' & f1 & r2 & s2' & f2 & H1 & Hf1 & H2 & Hf2 & _ & _ & Hsame).
  exists r1, s1', f1, r2, s2', f2. repeat split; try assumption.
  apply Hsame. discriminate.
Defined.

Lemma execute_without_default_options_run :
  exists r s' sent,
    execute Demo.hello (initial (Demo.client VUndefined)) = (Return r, s') /\
    nth_error (fetches s') (response r) = Some sent /\
    obj_keys (own_enumerable (fc_init sent)) = ["method"; "headers"; "body"; "signal"].
Proof.
  destruct (execute_without_default_options (initial (Demo.client VUndefined))
              Demo.hello "{ hello }" eq_refl (or_introl eq_refl))
    as (r & s' & sent & Hex & Hsent & Hinit).
  exists r, s', sent. repeat split; try assumption.
  rewrite Hinit. reflexivity.
Defined.

Lemma empty_variables_are_sent_run :
  exists r s' sent body,
    execute Demo.no_variables Demo.start = (Return r, s') /\
    nth_error (fetches s') (response r) = Some sent /\
    optional_get (fc_init sent) "body" = JSON_stringify (VObject body) /\
    obj_get "variables" body = Some (VObject []).
Proof.
  destruct (empty_variables_are_sent Demo.start Demo.no_variables "{ hello }" []
              eq_refl eq_refl)
    as (r & s' & sent & body & Hex & Hsent & Hbody & Hv & _).
  exists r, s', sent, body. repeat split; assumption.
Defined.


Lemma merged_headers_shape_run :
  exists r s' sent,
    execute Demo.hello (initial (Demo.client Demo.lower_case_options)) = (Return r, s') /\
    nth_error (fetches s') (response r) = Some sent /\
    optional_get (fc_init sent) "headers" =
      VObject [("content-type", VString "text/plain"); content_type].
Proof.
  assert (wf_object (own_enumerable (optional_get Demo.lower_case_options "headers")))
    as Hwf by (repeat constructor; simpl; intuition discriminate).
  destruct (merged_headers_shape (initial (Demo.client Demo.lower_case_options))
              Demo.hello "{ hello }" eq_refl Hwf)
    as (r & s' & sent & hs & Hex & Hsent & Hh & _ & Hfresh & _).
  exists r, s', sent. repeat split; try assumption.
  rewrite Hh, (Hfresh eq_refl). reflexivity.
Defined.

(** Default headers that already have a [Content-Type]. *)
Example merged_headers_replace :
  map (fun r => optional_get (snd r) "headers")
      (requests (snd (execute Demo.hello
                        (initial (Demo.client Demo.plain_text_options))))) =
  [VObject [("Accept", VString "text/html"); content_type;
            ("X-Trace", VString "1")]].
Proof. reflexivity. Qed.

End MoreRuns.
